(** * Planetoids cave generator: the seeded noise field and the ray marcher

    A shallow embedding of [generator.js]: the JavaScript glue that owns the
    parameter object and derives the uniforms, and the fragment shader that
    evaluates the fractal density field and marches a ray through it.

    Numbers.  The shader computes on [float]s and the script on doubles; the
    embedding computes on exact rationals ([Q]), so every statement below is
    about the arithmetic the code writes down, not about rounding.  The
    [int] uniforms and loop counters are [Z].  Equality on [Q] is [==]. *)

From Stdlib Require Import ZArith QArith Qround Qabs Qminmax Lqa Lia List String Bool.
From Stdlib Require Import Setoid Morphisms.
Import ListNotations.

Local Open Scope Z_scope.
Local Open Scope Q_scope.

(** ** Comparisons as the code tests them *)

(** [x < y] as a boolean test. *)
Definition Qltb (x y : Q) : bool :=
  (Qnum x * QDen y <? Qnum y * QDen x)%Z.

(** ** GLSL built-ins on scalars *)

(** [floor(x)]. *)
Definition floorQ (x : Q) : Q := inject_Z (Qfloor x).

(** [fract(x) = x - floor(x)]. *)
Definition fract (x : Q) : Q := x - floorQ x.

(** [mix(x, y, a) = x*(1-a) + y*a]. *)
Definition mix (x y a : Q) : Q := x * (1 - a) + y * a.

(** [clamp(x, lo, hi) = min(max(x, lo), hi)]. *)
Definition clamp (x lo hi : Q) : Q := Qmin (Qmax x lo) hi.

(** ** Vectors *)

Record vec3 : Set := mkvec3 { vx : Q; vy : Q; vz : Q }.

Declare Scope vec_scope.
Delimit Scope vec_scope with vec.
Bind Scope vec_scope with vec3.

(** Componentwise equality of the rational components. *)
Definition veq (p q : vec3) : Prop :=
  vx p == vx q /\ vy p == vy q /\ vz p == vz q.

Definition vadd (p q : vec3) : vec3 :=
  mkvec3 (vx p + vx q) (vy p + vy q) (vz p + vz q).
Definition vsub (p q : vec3) : vec3 :=
  mkvec3 (vx p - vx q) (vy p - vy q) (vz p - vz q).
Definition vmul (p q : vec3) : vec3 :=
  mkvec3 (vx p * vx q) (vy p * vy q) (vz p * vz q).
(** vector times scalar, [p * s] *)
Definition vscale (p : vec3) (s : Q) : vec3 :=
  mkvec3 (vx p * s) (vy p * s) (vz p * s).
(** vector plus scalar, [p + s] *)
Definition vadds (p : vec3) (s : Q) : vec3 :=
  mkvec3 (vx p + s) (vy p + s) (vz p + s).
(** scalar times vector, [s * p] *)
Definition smulv (s : Q) (p : vec3) : vec3 :=
  mkvec3 (s * vx p) (s * vy p) (s * vz p).
(** scalar minus vector, [s - p] *)
Definition ssubv (s : Q) (p : vec3) : vec3 :=
  mkvec3 (s - vx p) (s - vy p) (s - vz p).
(** the swizzle [p.yzx] *)
Definition yzx (p : vec3) : vec3 := mkvec3 (vy p) (vz p) (vx p).
Definition dot (p q : vec3) : Q := vx p * vx q + vy p * vy q + vz p * vz q.
Definition vmap (f : Q -> Q) (p : vec3) : vec3 :=
  mkvec3 (f (vx p)) (f (vy p)) (f (vz p)).
Definition vfloor : vec3 -> vec3 := vmap floorQ.
Definition vfract : vec3 -> vec3 := vmap fract.

Infix "+v" := vadd (at level 50, left associativity) : vec_scope.
Infix "*s" := vscale (at level 40, left associativity) : vec_scope.
Infix "=v" := veq (at level 70, no associativity) : vec_scope.
Local Open Scope vec_scope.

(** ** The uniforms of the fragment shader *)

Record Uniforms : Set := mkUniforms {
  uTime : Q;
  uRes : Q * Q;
  uSeedVec : vec3;
  uThreshold : Q;
  uFreq : Q;
  uCamDist : Q;
  uOctaves : Z;
  uGain : Q;
  uLacunarity : Q;
  uMaxSteps : Z;
  uMaxDist : Q;
  uStep : Q;
  uCamAngle : Q;
  uCamPitch : Q;
  uCamPos : vec3
}.

(** ** NoiseField: [hash31] and [valueNoise] *)

Section Field.

Variable u : Uniforms.

(** [[
  float hash31(vec3 p) {
    p = fract(p * 0.3183099 + uSeedVec);
    p += dot(p, p.yzx + 19.19);
    return fract((p.x + p.y) * p.z);
  }
]] *)
Definition hash31 (p : vec3) : Q :=
  let p := vfract (p *s (3183099 # 10000000) +v uSeedVec u) in
  let p := vadds p (dot p (vadds (yzx p) (1919 # 100))) in
  fract ((vx p + vy p) * vz p).

(** [valueNoise]: the eight corner hashes of the lattice cell of [p], blended
    with the weight [f*f*(3.0-2.0*f)] on each axis. *)
Definition valueNoise (p : vec3) : Q :=
  let i := vfloor p in
  let f := vfract p in
  let n000 := hash31 (i +v mkvec3 0 0 0) in
  let n100 := hash31 (i +v mkvec3 1 0 0) in
  let n010 := hash31 (i +v mkvec3 0 1 0) in
  let n110 := hash31 (i +v mkvec3 1 1 0) in
  let n001 := hash31 (i +v mkvec3 0 0 1) in
  let n101 := hash31 (i +v mkvec3 1 0 1) in
  let n011 := hash31 (i +v mkvec3 0 1 1) in
  let n111 := hash31 (i +v mkvec3 1 1 1) in
  let w := vmul (vmul f f) (ssubv 3 (smulv 2 f)) in
  let nx00 := mix n000 n100 (vx w) in
  let nx10 := mix n010 n110 (vx w) in
  let nx01 := mix n001 n101 (vx w) in
  let nx11 := mix n011 n111 (vx w) in
  let nxy0 := mix nx00 nx10 (vy w) in
  let nxy1 := mix nx01 nx11 (vy w) in
  mix nxy0 nxy1 (vz w).

(** ** FractalField: [fbm] and [field] *)

(** The body of [for (int o = 0; o < 8; ++o)], started at counter [o] with
    [n] iterations left before the constant bound stops the loop.
    [[
      if (o >= uOctaves) break;
      sum += amp * valueNoise(p * f);
      f *= uLacunarity;
      amp *= uGain;
    ]] *)
Fixpoint fbm_loop (n : nat) (o : Z) (amp f sum : Q) (p : vec3) : Q :=
  match n with
  | O => sum
  | S n' =>
      if (o >=? uOctaves u)%Z then sum
      else fbm_loop n' (o + 1)%Z (amp * uGain u) (f * uLacunarity u)
                    (sum + amp * valueNoise (p *s f)) p
  end.

Definition fbm (p : vec3) : Q := fbm_loop 8 0%Z (1 # 2) (uFreq u) 0 p.

(** [field(p) = fbm(p + vec3(0, 0, 0.15*uTime)) - uThreshold] *)
Definition field (p : vec3) : Q :=
  let n := fbm (p +v mkvec3 0 0 ((15 # 100) * uTime u)) in
  n - uThreshold u.

End Field.

(** ** SurfaceMarcher: the loop of [main] *)

(** Why the marching loop stopped.  The shader keeps no such flag: it is
    recorded here next to the values the shader does keep ([t], [hitT]), to
    tell the four ways out of the loop apart. *)
Inductive Exit : Set :=
| Crossed      (* [val * prevVal < 0.0], refined, [break] *)
| StepBudget   (* [if (i >= uMaxSteps) break;] *)
| DistBudget   (* [if (t > uMaxDist) break;] *)
| LoopBound.   (* the loop condition [i < 512] failed *)

(** The values of [t] and [hitT] after the loop, the value of the counter
    [i] when the loop was left, and the way it was left. *)
Record MarchOut : Set := mkOut {
  out_t : Q;
  out_hitT : Q;
  out_i : Z;
  out_exit : Exit
}.

(** The result of the marcher as [main] reads it: [if (hitT > 0.0)] shades
    the point at [hitT], the other branch shades the fog at [t]. *)
Inductive MarchResult : Set :=
| Hit (distance : Q)
| Miss (traveledDistance : Q).

Definition march_result (o : MarchOut) : MarchResult :=
  if Qltb 0 (out_hitT o) then Hit (out_hitT o) else Miss (out_t o).

Section March.

Variable u : Uniforms.
Variables ro rd : vec3.

(** [n] iterations of
    [[
      float m = 0.5*(a+b);
      float mv = field(ro + rd*m);
      if (mv * val < 0.0) { a = m; } else { b = m; }
    ]]
    from the bracket [(a, b)]. *)
Fixpoint refine_loop (n : nat) (val a b : Q) : Q * Q :=
  match n with
  | O => (a, b)
  | S n' =>
      let m := (1 # 2) * (a + b) in
      let mv := field u (ro +v rd *s m) in
      if Qltb (mv * val) 0 then refine_loop n' val m b
      else refine_loop n' val a m
  end.

(** [float a = t - uStep, b = t; for (int j=0; j<4; ++j) {...}
     hitT = 0.5*(a+b);] *)
Definition refine (val t : Q) : Q :=
  let '(a, b) := refine_loop 4 val (t - uStep u) t in
  (1 # 2) * (a + b).

(** The body of [for (int i=0; i<512; ++i)], started at counter [i] with [n]
    iterations left before the constant bound stops the loop. *)
Fixpoint march_loop (n : nat) (i : Z) (t prevVal : Q) : MarchOut :=
  match n with
  | O => mkOut t (-1 # 1) i LoopBound
  | S n' =>
      if (i >=? uMaxSteps u)%Z then mkOut t (-1 # 1) i StepBudget
      else
        let p := ro +v rd *s t in
        let val := field u p in
        if Qltb (val * prevVal) 0 then mkOut t (refine val t) i Crossed
        else
          let t := t + uStep u in
          if Qltb (uMaxDist u) t then mkOut t (-1 # 1) i DistBudget
          else march_loop n' (i + 1)%Z t val
  end.

(** [float t = 0.0; float prevVal = field(ro); float hitT = -1.0; for ...] *)
Definition march : MarchOut := march_loop 512 0%Z 0 (field u ro).

End March.

(** ** Shader: normal, lighting, fog, tonemap *)

Record vec4 : Set := mkvec4 { c_rgb : vec3; c_a : Q }.

(** [col / (1.0 + col)], componentwise *)
Definition tonemap1 (c : Q) : Q := c / (1 + c).
Definition tonemap (col : vec3) : vec3 := vmap tonemap1 col.

(** [mix] of two vectors with a scalar weight *)
Definition vmix (x y : vec3) (a : Q) : vec3 :=
  mkvec3 (mix (vx x) (vx y) a) (mix (vy x) (vy y) a) (mix (vz x) (vz y) a).

Definition cross (a b : vec3) : vec3 :=
  mkvec3 (vy a * vz b - vz a * vy b)
         (vz a * vx b - vx a * vz b)
         (vx a * vy b - vy a * vx b).

(** A float division whose result is a finite number: division by zero
    gives an infinity or a NaN, [None] here. *)
Definition div_finite (x y : Q) : option Q :=
  if Qeq_bool y 0 then None else Some (x / y).

Section Shader.

(** The transcendental built-ins of GLSL, which have no rational model. *)
Variables sinQ cosQ expQ sqrtQ : Q -> Q.
Variable powQ : Q -> Q -> Q.

Variable u : Uniforms.

(** [normalize(v) = v / length(v)] *)
Definition normalize (v : vec3) : vec3 :=
  let l := sqrtQ (dot v v) in mkvec3 (vx v / l) (vy v / l) (vz v / l).

(** [grad]: one-sided differences of [field] with [e = 0.002] *)
Definition grad (p : vec3) : vec3 :=
  let e := 2 # 1000 in
  let c := field u p in
  normalize (mkvec3 (field u (p +v mkvec3 e 0 0) - c)
                    (field u (p +v mkvec3 0 e 0) - c)
                    (field u (p +v mkvec3 0 0 e) - c)).

(** The [if (hitT > 0.0)] branch of [main]. *)
Definition hitColor (ro rd : vec3) (hitT : Q) : vec3 :=
  let p := ro +v rd *s hitT in
  let n := grad p in
  let ld1 := normalize (mkvec3 (6 # 10) (7 # 10) (5 # 10)) in
  let ld2 := normalize (mkvec3 (-4 # 10) (3 # 10) (8 # 10)) in
  let ld3 := normalize (mkvec3 (2 # 10) (-8 # 10) (4 # 10)) in
  let diff1 := clamp (dot n ld1) 0 1 in
  let diff2 := clamp (dot n ld2) 0 1 * (3 # 10) in
  let diff3 := clamp (dot n ld3) 0 1 * (2 # 10) in
  let ao := clamp ((4 # 10) + (6 # 10) * field u (p +v n *s (3 # 10))) 0 1 in
  let rock := mkvec3 (45 # 100) (42 # 100) (38 # 100) in
  let lightCol1 := mkvec3 1 (95 # 100) (8 # 10) in
  let lightCol2 := mkvec3 (8 # 10) (9 # 10) 1 in
  let lightCol3 := mkvec3 (9 # 10) (85 # 100) (7 # 10) in
  let totalLight := lightCol1 *s diff1 +v lightCol2 *s diff2 +v lightCol3 *s diff3 in
  let col := vmul rock (vadds (smulv (8 # 10) totalLight) (2 # 10)) *s ao in
  let sss := clamp ((1 # 10) + (3 # 10) * (1 - Qabs (dot n rd))) 0 1 in
  col +v mkvec3 (1 # 10) (8 # 100) (6 # 100) *s sss.

(** The [else] branch of [main].  Its two divisions are the divisions of
    [Q]: they are the shader's for every [uMaxDist] but 0, where the shader
    gets an infinity or a NaN and [Q] gets 0; [missColor_finite] below
    keeps that case apart. *)
Definition missColor (t : Q) : vec3 :=
  let fogFactor := 1 / uMaxDist u in
  let v := expQ (- fogFactor * t) in
  let fogColor := vmix (mkvec3 (1 # 10) (15 # 100) (2 # 10)) (mkvec3 0 0 0) v in
  let distanceRatio := t / uMaxDist u in
  let distanceColor :=
    mkvec3 ((2 # 10) * distanceRatio) ((1 # 10) * distanceRatio)
           ((5 # 100) * distanceRatio) in
  fogColor +v distanceColor.

(** The [else] branch of [main] with its divisions as the shader performs
    them: [None] when [1.0 / uMaxDist] and [t / uMaxDist] divide by zero,
    where [distanceRatio] is an infinity or a NaN and so is every component
    of [col]. *)
Definition missColor_finite (t : Q) : option vec3 :=
  match div_finite 1 (uMaxDist u) with
  | None => None
  | Some fogFactor =>
      match div_finite t (uMaxDist u) with
      | None => None
      | Some distanceRatio =>
          let v := expQ (- fogFactor * t) in
          let fogColor :=
            vmix (mkvec3 (1 # 10) (15 # 100) (2 # 10)) (mkvec3 0 0 0) v in
          let distanceColor :=
            mkvec3 ((2 # 10) * distanceRatio) ((1 # 10) * distanceRatio)
                   ((5 # 100) * distanceRatio) in
          Some (fogColor +v distanceColor)
      end
  end.

(** [main] from the ray on (source lines 149 to 216): march, shade the hit or
    the fog, tonemap, gamma. *)
Definition main_ray (ro rd : vec3) : vec4 :=
  let o := march u ro rd in
  let t := out_t o in
  let hitT := out_hitT o in
  let col := mkvec3 0 0 0 in
  let col := if Qltb 0 hitT then hitColor ro rd hitT else missColor t in
  let col := tonemap col in
  mkvec4 (vmap (fun c => powQ c (95 # 100)) col) 1.

(** [lookAt]: the three columns of the camera matrix *)
Definition lookAt (ro ta : vec3) : vec3 * vec3 * vec3 :=
  let ww := normalize (vsub ta ro) in
  let uu := normalize (cross (mkvec3 0 1 0) ww) in
  let vv := cross ww uu in
  (uu, vv, ww).

(** The camera set-up of [main] (source lines 127 to 147): the ray origin
    and direction of the pixel with varying [vUv]. *)
Definition ray (vUv : Q * Q) : vec3 * vec3 :=
  let asp := fst (uRes u) / snd (uRes u) in
  let uvx := (fst vUv * 2 - 1) * asp in
  let uvy := snd vUv * 2 - 1 in
  let ro := uCamPos u in
  let forward := mkvec3 (sinQ (uCamAngle u)) 0 (cosQ (uCamAngle u)) in
  let cosPitch := cosQ (uCamPitch u) in
  let sinPitch := sinQ (uCamPitch u) in
  let forward :=
    normalize (mkvec3 (vx forward * cosPitch) sinPitch (vz forward * cosPitch)) in
  let ta := ro +v forward in
  let '(uu, vv, ww) := lookAt ro ta in
  let d := normalize (mkvec3 uvx uvy (16 # 10)) in
  let rd := normalize (uu *s vx d +v vv *s vy d +v ww *s vz d) in
  (ro, rd).

Definition main (vUv : Q * Q) : vec4 :=
  let '(ro, rd) := ray vUv in main_ray ro rd.

End Shader.

(** ** The script: parameters, URL overrides, uniforms *)

(** The [params] object.  Every property is a JavaScript number. *)
Record Params : Set := mkParams {
  seed : Q;
  threshold : Q;
  freq : Q;
  octaves : Q;
  gain : Q;
  lacunarity : Q;
  camDist : Q;
  maxSteps : Q;
  maxDist : Q;
  stepSize : Q
}.

(** The starting parameters. *)
Definition params0 : Params :=
  mkParams 0 (3 # 10) (3 # 10) 3 (8 # 10) 2 3 1024 200 (1 # 100).

(** [if (k in params) params[k] = Number(v);] with [v] already read as a
    number.  A key that names no parameter leaves the ten parameters as they
    are. *)
Definition set_param (k : string) (v : Q) (p : Params) : Params :=
  if String.eqb k "seed" then
    mkParams v (threshold p) (freq p) (octaves p) (gain p) (lacunarity p)
             (camDist p) (maxSteps p) (maxDist p) (stepSize p)
  else if String.eqb k "threshold" then
    mkParams (seed p) v (freq p) (octaves p) (gain p) (lacunarity p)
             (camDist p) (maxSteps p) (maxDist p) (stepSize p)
  else if String.eqb k "freq" then
    mkParams (seed p) (threshold p) v (octaves p) (gain p) (lacunarity p)
             (camDist p) (maxSteps p) (maxDist p) (stepSize p)
  else if String.eqb k "octaves" then
    mkParams (seed p) (threshold p) (freq p) v (gain p) (lacunarity p)
             (camDist p) (maxSteps p) (maxDist p) (stepSize p)
  else if String.eqb k "gain" then
    mkParams (seed p) (threshold p) (freq p) (octaves p) v (lacunarity p)
             (camDist p) (maxSteps p) (maxDist p) (stepSize p)
  else if String.eqb k "lacunarity" then
    mkParams (seed p) (threshold p) (freq p) (octaves p) (gain p) v
             (camDist p) (maxSteps p) (maxDist p) (stepSize p)
  else if String.eqb k "camDist" then
    mkParams (seed p) (threshold p) (freq p) (octaves p) (gain p) (lacunarity p)
             v (maxSteps p) (maxDist p) (stepSize p)
  else if String.eqb k "maxSteps" then
    mkParams (seed p) (threshold p) (freq p) (octaves p) (gain p) (lacunarity p)
             (camDist p) v (maxDist p) (stepSize p)
  else if String.eqb k "maxDist" then
    mkParams (seed p) (threshold p) (freq p) (octaves p) (gain p) (lacunarity p)
             (camDist p) (maxSteps p) v (stepSize p)
  else if String.eqb k "stepSize" then
    mkParams (seed p) (threshold p) (freq p) (octaves p) (gain p) (lacunarity p)
             (camDist p) (maxSteps p) (maxDist p) v
  else p.

(** [new URLSearchParams(location.search).forEach((v,k) => ...)]: the
    key/value pairs of the query string, in order. *)
Definition url_params (query : list (string * Q)) (p : Params) : Params :=
  fold_left (fun p kv => set_param (fst kv) (snd kv) p) query p.

(** Truncation toward zero. *)
Definition Qtrunc (x : Q) : Z := Z.quot (Qnum x) (QDen x).

(** Wrap-around into the signed 32-bit range. *)
Definition wrap32 (z : Z) : Z := ((z + 2 ^ 31) mod 2 ^ 32 - 2 ^ 31)%Z.

(** [x|0], and the conversion of a number handed to an [int] uniform. *)
Definition toInt32 (x : Q) : Z := wrap32 (Qtrunc x).

(** The [uSeedVec] uniform.  [%] is the remainder of JavaScript, which takes
    the sign of the dividend ([Z.rem]).
    [[
      const s = params.seed|0;
      const x = ((s * 16807) % 2147483647) / 2147483647;
      const y = ((s * 48271) % 2147483647) / 2147483647;
      const z = ((s * 69621) % 2147483647) / 2147483647;
      return [x, y, z];
    ]] *)
Definition seedVec (p : Params) : vec3 :=
  let s := toInt32 (seed p) in
  let x := Z.rem (s * 16807) 2147483647 # 2147483647 in
  let y := Z.rem (s * 48271) 2147483647 # 2147483647 in
  let z := Z.rem (s * 69621) 2147483647 # 2147483647 in
  mkvec3 x y z.

(** What a frame supplies besides the parameters: the clock, the viewport and
    the camera globals kept by the input handling. *)
Record FrameContext : Set := mkFrame {
  time : Q;
  viewportWidth : Q;
  viewportHeight : Q;
  cameraAngle : Q;
  cameraPitch : Q;
  cameraX : Q;
  cameraY : Q;
  cameraZ : Q
}.

(** The [uniforms] block of the draw command, evaluated on the parameter
    object as it is when the frame is drawn. *)
Definition uniforms (p : Params) (c : FrameContext) : Uniforms :=
  {| uTime := time c;
     uRes := (viewportWidth c, viewportHeight c);
     uSeedVec := seedVec p;
     uThreshold := threshold p;
     uFreq := freq p;
     uCamDist := camDist p;
     uOctaves := toInt32 (octaves p);
     uGain := gain p;
     uLacunarity := lacunarity p;
     uMaxSteps := toInt32 (maxSteps p);
     uMaxDist := maxDist p;
     uStep := stepSize p;
     uCamAngle := cameraAngle c;
     uCamPitch := cameraPitch c;
     uCamPos := mkvec3 (cameraX c) (cameraY c) (cameraZ c) |}.

(** ** Definitions used to state the properties *)

(** [1 + g + ... + g^(n-1)] *)
Fixpoint geom (g : Q) (n : nat) : Q :=
  match n with
  | O => 0
  | S n' => 1 + g * geom g n'
  end.

(** The uniforms with another octave count, everything else unchanged. *)
Definition set_uOctaves (n : Z) (u : Uniforms) : Uniforms :=
  {| uTime := uTime u; uRes := uRes u; uSeedVec := uSeedVec u;
     uThreshold := uThreshold u; uFreq := uFreq u; uCamDist := uCamDist u;
     uOctaves := n; uGain := uGain u; uLacunarity := uLacunarity u;
     uMaxSteps := uMaxSteps u; uMaxDist := uMaxDist u; uStep := uStep u;
     uCamAngle := uCamAngle u; uCamPitch := uCamPitch u; uCamPos := uCamPos u |}.

(** The uniforms with another distance budget, everything else unchanged. *)
Definition set_uMaxDist (d : Q) (u : Uniforms) : Uniforms :=
  {| uTime := uTime u; uRes := uRes u; uSeedVec := uSeedVec u;
     uThreshold := uThreshold u; uFreq := uFreq u; uCamDist := uCamDist u;
     uOctaves := uOctaves u; uGain := uGain u; uLacunarity := uLacunarity u;
     uMaxSteps := uMaxSteps u; uMaxDist := d; uStep := uStep u;
     uCamAngle := uCamAngle u; uCamPitch := uCamPitch u; uCamPos := uCamPos u |}.

(** The terms [amp * valueNoise(p * f)] of the first [n] octaves, with the
    amplitude and frequency updated as the loop of [fbm] updates them. *)
Fixpoint octave_terms (u : Uniforms) (p : vec3) (n : nat) (amp f : Q) : list Q :=
  match n with
  | O => []
  | S n' =>
      amp * valueNoise u (p *s f)
      :: octave_terms u p n' (amp * uGain u) (f * uLacunarity u)
  end.

(** The number of octaves [fbm] accumulates for a requested count. *)
Definition octaves_run (requested : Z) : nat :=
  Z.to_nat (Z.min 8 (Z.max 0 requested)).

(** A frame context for examples: time 0, a square viewport, the camera at
    the origin looking down +z. *)
Definition frame0 : FrameContext := mkFrame 0 512 512 0 0 0 0 0.

(** The density along the ray: [field(ro + rd*m)]. *)
Definition density (u : Uniforms) (ro rd : vec3) (m : Q) : Q :=
  field u (ro +v rd *s m).

(** Two densities of strictly opposite signs. *)
Definition opposite_signs (x y : Q) : Prop := x * y < 0.

(** The value of [fbm] at (0, 0, 1/8) for seed 0, one octave, frequency 1. *)
Definition cave_threshold : Q := 2821509432021128871 # 256000000000000000000.

(** A cave whose surface crosses the +z axis inside the first step: one
    octave at frequency 1, a step of 1/4, and the threshold
    [cave_threshold]. *)
Definition cave_params : Params :=
  url_params
    [("threshold"%string, cave_threshold);
     ("freq"%string, 1); ("octaves"%string, 1); ("stepSize"%string, 1 # 4)]
    params0.

Definition cave_uniforms : Uniforms := uniforms cave_params frame0.

(** The ray of the centre pixel for [frame0]: from the origin down +z. *)
Definition origin : vec3 := mkvec3 0 0 0.
Definition down_z : vec3 := mkvec3 0 0 1.

(** The value of [t] after [j] more executions of [t += uStep]. *)
Fixpoint advance (step t : Q) (j : nat) : Q :=
  match j with
  | O => t
  | S j' => advance step (t + step) j'
  end.

(** The value of [prevVal] at the [j]-th iteration after a loop state with
    [prevVal = pv] and distance [t]: [pv] itself, then the density sampled
    one iteration before. *)
Definition prev_at (u : Uniforms) (ro rd : vec3) (pv t : Q) (j : nat) : Q :=
  match j with
  | O => pv
  | S j' => density u ro rd (advance (uStep u) t j')
  end.

(** How many times [t += uStep] ran: once per completed iteration, and once
    more when the loop was left by the distance test that follows it. *)
Definition steps_taken (o : MarchOut) : Z :=
  match out_exit o with
  | DistBudget => (out_i o + 1)%Z
  | _ => out_i o
  end.

(** The uniforms with another step budget, everything else unchanged. *)
Definition set_uMaxSteps (n : Z) (u : Uniforms) : Uniforms :=
  {| uTime := uTime u; uRes := uRes u; uSeedVec := uSeedVec u;
     uThreshold := uThreshold u; uFreq := uFreq u; uCamDist := uCamDist u;
     uOctaves := uOctaves u; uGain := uGain u; uLacunarity := uLacunarity u;
     uMaxSteps := n; uMaxDist := uMaxDist u; uStep := uStep u;
     uCamAngle := uCamAngle u; uCamPitch := uCamPitch u; uCamPos := uCamPos u |}.

(** The blend that [valueNoise] computes, as a function of the lattice
    cell [i = floor(p)] and the position [f = fract(p)] inside it. *)
Definition cell_blend (u : Uniforms) (i f : vec3) : Q :=
  let n000 := hash31 u (i +v mkvec3 0 0 0) in
  let n100 := hash31 u (i +v mkvec3 1 0 0) in
  let n010 := hash31 u (i +v mkvec3 0 1 0) in
  let n110 := hash31 u (i +v mkvec3 1 1 0) in
  let n001 := hash31 u (i +v mkvec3 0 0 1) in
  let n101 := hash31 u (i +v mkvec3 1 0 1) in
  let n011 := hash31 u (i +v mkvec3 0 1 1) in
  let n111 := hash31 u (i +v mkvec3 1 1 1) in
  let w := vmul (vmul f f) (ssubv 3 (smulv 2 f)) in
  let nx00 := mix n000 n100 (vx w) in
  let nx10 := mix n010 n110 (vx w) in
  let nx01 := mix n001 n101 (vx w) in
  let nx11 := mix n011 n111 (vx w) in
  let nxy0 := mix nx00 nx10 (vy w) in
  let nxy1 := mix nx01 nx11 (vy w) in
  mix nxy0 nxy1 (vz w).

(** The uniforms with another seed vector, everything else unchanged. *)
Definition set_uSeedVec (v : vec3) (u : Uniforms) : Uniforms :=
  {| uTime := uTime u; uRes := uRes u; uSeedVec := v;
     uThreshold := uThreshold u; uFreq := uFreq u; uCamDist := uCamDist u;
     uOctaves := uOctaves u; uGain := uGain u; uLacunarity := uLacunarity u;
     uMaxSteps := uMaxSteps u; uMaxDist := uMaxDist u; uStep := uStep u;
     uCamAngle := uCamAngle u; uCamPitch := uCamPitch u; uCamPos := uCamPos u |}.

(** The uniforms at another time, everything else unchanged. *)
Definition set_uTime (t : Q) (u : Uniforms) : Uniforms :=
  {| uTime := t; uRes := uRes u; uSeedVec := uSeedVec u;
     uThreshold := uThreshold u; uFreq := uFreq u; uCamDist := uCamDist u;
     uOctaves := uOctaves u; uGain := uGain u; uLacunarity := uLacunarity u;
     uMaxSteps := uMaxSteps u; uMaxDist := uMaxDist u; uStep := uStep u;
     uCamAngle := uCamAngle u; uCamPitch := uCamPitch u; uCamPos := uCamPos u |}.

(** The keys of the [params] object. *)
Definition param_keys : list string :=
  ["seed"; "threshold"; "freq"; "octaves"; "gain"; "lacunarity"; "camDist";
   "maxSteps"; "maxDist"; "stepSize"]%string.


(** * Properties *)

(** ** Comparisons *)

Lemma Qltb_true (x y : Q) : Qltb x y = true <-> x < y.
Proof. unfold Qltb, Qlt. apply Z.ltb_lt. Qed.

Lemma Qltb_false (x y : Q) : Qltb x y = false <-> y <= x.
Proof. unfold Qltb, Qle. rewrite Z.ltb_ge. reflexivity. Qed.

Lemma Qltb_spec (x y : Q) : reflect (x < y) (Qltb x y).
Proof.
  destruct (Qltb x y) eqn:E; constructor.
  - now apply Qltb_true.
  - apply Qltb_false in E. now apply Qle_not_lt.
Qed.

(** ** The scalar built-ins *)

Lemma Qmult_le_l_weak (a x y : Q) : 0 <= a -> x <= y -> a * x <= a * y.
Proof.
  intros Ha Hxy.
  assert (0 <= a * (y - x)) by (apply Qmult_le_0_compat; lra).
  assert (E : a * (y - x) == a * y - a * x) by ring.
  lra.
Qed.

Lemma fract_range (x : Q) : 0 <= fract x < 1.
Proof.
  unfold fract, floorQ.
  pose proof (Qfloor_le x) as Hlo.
  pose proof (Qlt_floor x) as Hhi.
  rewrite inject_Z_plus in Hhi.
  change (inject_Z 1) with 1 in Hhi.
  split; lra.
Qed.

Lemma mix_range (x y a : Q) :
  0 <= x < 1 -> 0 <= y < 1 -> 0 <= a <= 1 -> 0 <= mix x y a < 1.
Proof.
  unfold mix. intros [Hx0 Hx1] [Hy0 Hy1] [Ha0 Ha1]. split.
  - assert (0 <= x * (1 - a)) by (apply Qmult_le_0_compat; lra).
    assert (0 <= y * a) by (apply Qmult_le_0_compat; lra).
    lra.
  - destruct (Qlt_le_dec 0 a) as [Hpos | Hle].
    + assert (x * (1 - a) <= 1 * (1 - a)) by (apply Qmult_le_compat_r; lra).
      assert (y * a < 1 * a) by (apply Qmult_lt_compat_r; lra).
      lra.
    + assert (Ha : a == 0) by lra.
      rewrite Ha. lra.
Qed.

(** The weight [f*f*(3-2f)] stays in [[0,1]] on a fractional part. *)
Lemma smooth_range (f : Q) : 0 <= f < 1 -> 0 <= f * f * (3 - 2 * f) <= 1.
Proof.
  intros [H0 H1]. split.
  - apply Qmult_le_0_compat; [ apply Qmult_le_0_compat; lra | lra ].
  - assert (E : 1 - f * f * (3 - 2 * f) == (1 - f) * (1 - f) * (1 + 2 * f)) by ring.
    assert (0 <= (1 - f) * (1 - f) * (1 + 2 * f))
      by (apply Qmult_le_0_compat; [ apply Qmult_le_0_compat; lra | lra ]).
    lra.
Qed.

(** ** NoiseField ranges *)

Lemma hash31_range (u : Uniforms) (p : vec3) : 0 <= hash31 u p < 1.
Proof. unfold hash31. apply fract_range. Qed.

Lemma trilinear_range (n000 n100 n010 n110 n001 n101 n011 n111 wx wy wz : Q) :
  0 <= n000 < 1 -> 0 <= n100 < 1 -> 0 <= n010 < 1 -> 0 <= n110 < 1 ->
  0 <= n001 < 1 -> 0 <= n101 < 1 -> 0 <= n011 < 1 -> 0 <= n111 < 1 ->
  0 <= wx <= 1 -> 0 <= wy <= 1 -> 0 <= wz <= 1 ->
  0 <= mix (mix (mix n000 n100 wx) (mix n010 n110 wx) wy)
           (mix (mix n001 n101 wx) (mix n011 n111 wx) wy) wz < 1.
Proof.
  intros H000 H100 H010 H110 H001 H101 H011 H111 Hx Hy Hz.
  pose proof (mix_range n000 n100 wx H000 H100 Hx) as Hx00.
  pose proof (mix_range n010 n110 wx H010 H110 Hx) as Hx10.
  pose proof (mix_range n001 n101 wx H001 H101 Hx) as Hx01.
  pose proof (mix_range n011 n111 wx H011 H111 Hx) as Hx11.
  pose proof (mix_range _ _ wy Hx00 Hx10 Hy) as Hxy0.
  pose proof (mix_range _ _ wy Hx01 Hx11 Hy) as Hxy1.
  exact (mix_range _ _ wz Hxy0 Hxy1 Hz).
Qed.

Lemma valueNoise_range (u : Uniforms) (p : vec3) : 0 <= valueNoise u p < 1.
Proof.
  unfold valueNoise. cbv zeta.
  assert (Hw : forall x, 0 <= fract x * fract x * (3 - 2 * fract x) <= 1)
    by (intro x; apply smooth_range, fract_range).
  apply trilinear_range;
    first [ apply hash31_range
          | unfold vmul, ssubv, smulv, vfract, vmap; cbn [vx vy vz]; apply Hw ].
Qed.

(** ** FractalField bounds *)

Lemma geom_nonneg (g : Q) (n : nat) : 0 <= g -> 0 <= geom g n.
Proof.
  intros Hg. induction n as [| n IH]; cbn [geom]; [ lra | ].
  assert (0 <= g * geom g n) by (apply Qmult_le_0_compat; assumption).
  lra.
Qed.

Lemma geom_mono (g : Q) (n : nat) : 0 <= g -> geom g n <= geom g (S n).
Proof.
  intros Hg. induction n as [| n IH].
  - cbn. lra.
  - cbn [geom] in *.
    assert (g * geom g n <= g * (1 + g * geom g n))
      by (apply Qmult_le_l_weak; assumption).
    lra.
Qed.

Lemma fbm_loop_bounds (u : Uniforms) (p : vec3) (n : nat) :
  0 <= uGain u ->
  forall (o : Z) (amp f sum : Q),
    0 <= amp ->
    sum <= fbm_loop u n o amp f sum p <= sum + amp * geom (uGain u) n.
Proof.
  intros Hg. induction n as [| n IH]; intros o amp f sum Hamp.
  - cbn. lra.
  - cbn [fbm_loop].
    assert (Hgeo : 0 <= amp * geom (uGain u) (S n))
      by (apply Qmult_le_0_compat; [ assumption | apply geom_nonneg; assumption ]).
    destruct (o >=? uOctaves u)%Z.
    + lra.
    + pose proof (valueNoise_range u (p *s f)) as [Hv0 Hv1].
      assert (Hamp' : 0 <= amp * uGain u) by (apply Qmult_le_0_compat; assumption).
      specialize (IH (o + 1)%Z (amp * uGain u) (f * uLacunarity u)
                     (sum + amp * valueNoise u (p *s f)) Hamp').
      assert (0 <= amp * valueNoise u (p *s f)) by (apply Qmult_le_0_compat; assumption).
      assert (amp * valueNoise u (p *s f) <= amp * 1)
        by (apply Qmult_le_l_weak; [ assumption | lra ]).
      cbn [geom].
      assert (E : amp * (1 + uGain u * geom (uGain u) n)
                  == amp * 1 + amp * uGain u * geom (uGain u) n) by ring.
      lra.
Qed.



(** ** The octave loop *)

(** The loop of [fbm] adds the terms of the octaves it runs, in order. *)
Lemma fbm_loop_terms (u : Uniforms) (p : vec3) (n : nat) :
  forall (o : Z) (amp f sum : Q),
    fbm_loop u n o amp f sum p
    = fold_left Qplus
        (octave_terms u p (Nat.min n (Z.to_nat (uOctaves u - o))) amp f) sum.
Proof.
  induction n as [| n IH]; intros o amp f sum; [ reflexivity | ].
  cbn [fbm_loop].
  destruct (Z.geb_spec o (uOctaves u)) as [Hge | Hlt].
  - replace (Z.to_nat (uOctaves u - o)) with O by lia. reflexivity.
  - replace (Z.to_nat (uOctaves u - o))
      with (S (Z.to_nat (uOctaves u - (o + 1)))) by lia.
    cbn [Nat.min octave_terms fold_left]. apply IH.
Qed.

Lemma octaves_run_min (r : Z) : octaves_run r = Nat.min 8 (Z.to_nat r).
Proof. unfold octaves_run. lia. Qed.

Lemma fbm_terms (u : Uniforms) (p : vec3) :
  fbm u p
  = fold_left Qplus
      (octave_terms u p (octaves_run (uOctaves u)) (1 # 2) (uFreq u)) 0.
Proof.
  unfold fbm. rewrite fbm_loop_terms, octaves_run_min, Z.sub_0_r. reflexivity.
Qed.

Lemma fbm_clamped (u : Uniforms) (p : vec3) (n : Z) :
  (8 <= n)%Z -> fbm (set_uOctaves n u) p = fbm (set_uOctaves 8 u) p.
Proof.
  intros Hn. rewrite !fbm_terms. cbn [uOctaves set_uOctaves uFreq].
  replace (octaves_run n) with (octaves_run 8) by (unfold octaves_run; lia).
  reflexivity.
Qed.

(** C4.  The fractal field accumulates at most 8 octaves whatever count is
    requested: [fbm] is the sum of the first [min 8 (max 0 uOctaves)] octave
    terms, a request above 8 is evaluated as 8, and so the field with 20
    octaves requested is the field with 8, at every point and time, also
    when the count comes from the parameter object. *)
Theorem octave_clamp (u : Uniforms) (p : vec3) :
  (octaves_run (uOctaves u) <= 8)%nat /\
  fbm u p
  = fold_left Qplus
      (octave_terms u p (octaves_run (uOctaves u)) (1 # 2) (uFreq u)) 0 /\
  (forall n : Z, (8 <= n)%Z ->
     fbm (set_uOctaves n u) p = fbm (set_uOctaves 8 u) p /\
     field (set_uOctaves n u) p = field (set_uOctaves 8 u) p) /\
  field (set_uOctaves 20 u) p = field (set_uOctaves 8 u) p /\
  (forall (ps : Params) (c : FrameContext),
     field (uniforms (set_param "octaves" 20 ps) c) p
     = field (uniforms (set_param "octaves" 8 ps) c) p).
Proof.
  assert (Hfield : forall v n, (8 <= n)%Z ->
            field (set_uOctaves n v) p = field (set_uOctaves 8 v) p).
  { intros v n Hn. unfold field. rewrite (fbm_clamped v _ n Hn). reflexivity. }
  split; [ rewrite octaves_run_min; lia | ].
  split; [ apply fbm_terms | ].
  split; [ intros n Hn; split; [ apply fbm_clamped | apply Hfield ]; exact Hn | ].
  split; [ apply Hfield; lia | ].
  intros ps c.
  change (uniforms (set_param "octaves" 20 ps) c)
    with (set_uOctaves 20 (uniforms ps c)).
  change (uniforms (set_param "octaves" 8 ps) c)
    with (set_uOctaves 8 (uniforms ps c)).
  apply Hfield. lia.
Qed.

Lemma octave_clamp_witness :
  let u := uniforms params0 frame0 in
  let p := mkvec3 (1 # 2) (1 # 3) (1 # 4) in
  (8 <= 20)%Z /\ field (set_uOctaves 20 u) p = field (set_uOctaves 8 u) p.
Proof.
  intros u p.
  assert (H : (8 <= 20)%Z) by lia.
  split; [ exact H | ].
  exact (proj2 (proj1 (proj2 (proj2 (octave_clamp u p))) 20%Z H)).
Defined.

(** ** The seed vector *)

Lemma Qtrunc_nonneg (x : Q) : 0 <= x -> Qtrunc x = Qfloor x.
Proof.
  destruct x as [a b]. unfold Qtrunc, Qfloor, Qle. cbn.
  intros H. apply Z.quot_div_nonneg; lia.
Qed.

Lemma Qtrunc_opp (x : Q) : Qtrunc (- x) = (- Qtrunc x)%Z.
Proof. destruct x as [a b]. unfold Qtrunc. cbn. apply Z.quot_opp_l. lia. Qed.

#[global] Instance Qtrunc_comp : Proper (Qeq ==> eq) Qtrunc.
Proof.
  assert (Hpos : forall x y, x == y -> 0 <= x -> Qtrunc x = Qtrunc y).
  { intros x y E Hx. rewrite !Qtrunc_nonneg; [ now rewrite E | lra | lra ]. }
  intros x y E.
  destruct (Qlt_le_dec x 0) as [Hneg | Hnn].
  - assert (H : Qtrunc (- x) = Qtrunc (- y)) by (apply Hpos; lra).
    rewrite !Qtrunc_opp in H. lia.
  - now apply Hpos.
Qed.

Lemma Qtrunc_inject_Z (s : Z) : Qtrunc (inject_Z s) = s.
Proof. unfold Qtrunc. cbn. apply Z.quot_1_r. Qed.

Lemma wrap32_small (s : Z) : (- 2 ^ 31 <= s < 2 ^ 31)%Z -> wrap32 s = s.
Proof. intros H. unfold wrap32. rewrite Z.mod_small; lia. Qed.

Lemma toInt32_int (x : Q) (s : Z) :
  x == inject_Z s -> (- 2 ^ 31 <= s < 2 ^ 31)%Z -> toInt32 x = s.
Proof.
  intros E H. unfold toInt32. rewrite E, Qtrunc_inject_Z. now apply wrap32_small.
Qed.

Lemma seedVec_int (p : Params) (s : Z) :
  seed p == inject_Z s -> (- 2 ^ 31 <= s < 2 ^ 31)%Z ->
  seedVec p
  = mkvec3 (Z.rem (s * 16807) 2147483647 # 2147483647)
           (Z.rem (s * 48271) 2147483647 # 2147483647)
           (Z.rem (s * 69621) 2147483647 # 2147483647).
Proof. intros E H. unfold seedVec. now rewrite (toInt32_int _ s E H). Qed.

(** A remainder over the modulus is strictly between -1 and 1, and in
    [0,1) when the dividend is not negative. *)
Lemma rem_component_range (a : Z) :
  -1 < Z.rem a 2147483647 # 2147483647 < 1 /\
  ((0 <= a)%Z -> 0 <= Z.rem a 2147483647 # 2147483647 < 1).
Proof.
  pose proof (Z.rem_bound_abs a 2147483647 ltac:(lia)) as Habs.
  split.
  - unfold Qlt. cbn. lia.
  - intros Ha.
    pose proof (Z.rem_bound_pos a 2147483647 Ha ltac:(lia)) as Hpos.
    unfold Qlt, Qle. cbn. lia.
Qed.

Lemma seedVec_same_seed (p p' : Params) :
  seed p' == seed p -> seedVec p' = seedVec p.
Proof. intros E. unfold seedVec, toInt32. now rewrite E. Qed.

(** C5, as the code has it.  For every 32-bit integer seed [s] the seed
    vector is [(rem(s*16807)/M, rem(s*48271)/M, rem(s*69621)/M)] with
    [M = 2147483647] and [rem] the remainder that takes the sign of [s]; the
    same seed gives the same vector; each component lies strictly between
    -1 and 1, and for a seed that is not negative [rem] is the mathematical
    [mod] and each component lies in [0,1). *)
Theorem seedVec_formula (p : Params) (s : Z) :
  seed p == inject_Z s -> (- 2 ^ 31 <= s < 2 ^ 31)%Z ->
  let v := seedVec p in
  v = mkvec3 (Z.rem (s * 16807) 2147483647 # 2147483647)
             (Z.rem (s * 48271) 2147483647 # 2147483647)
             (Z.rem (s * 69621) 2147483647 # 2147483647) /\
  (forall p' : Params, seed p' == seed p -> seedVec p' = v) /\
  (-1 < vx v < 1 /\ -1 < vy v < 1 /\ -1 < vz v < 1) /\
  ((0 <= s)%Z ->
   v = mkvec3 ((s * 16807) mod 2147483647 # 2147483647)
              ((s * 48271) mod 2147483647 # 2147483647)
              ((s * 69621) mod 2147483647 # 2147483647) /\
   0 <= vx v < 1 /\ 0 <= vy v < 1 /\ 0 <= vz v < 1).
Proof.
  intros E H v. subst v. rewrite (seedVec_int p s E H). cbn [vx vy vz].
  split; [ reflexivity | ].
  split; [ intros p' E'; rewrite <- (seedVec_int p s E H);
           now apply seedVec_same_seed | ].
  split; [ repeat split; apply (proj1 (rem_component_range _)) | ].
  intros Hs. split.
  - rewrite !Z.rem_mod_nonneg by lia. reflexivity.
  - repeat split; apply (proj2 (rem_component_range _)); lia.
Qed.

Lemma seedVec_formula_witness :
  let p := set_param "seed" 42 params0 in
  seed p == inject_Z 42 /\ (- 2 ^ 31 <= 42 < 2 ^ 31)%Z /\
  seedVec p = mkvec3 (705894 # 2147483647) (2027382 # 2147483647)
                     (2924082 # 2147483647).
Proof.
  intros p.
  assert (E : seed p == inject_Z 42) by reflexivity.
  assert (H : (- 2 ^ 31 <= 42 < 2 ^ 31)%Z) by lia.
  split; [ exact E | ]. split; [ exact H | ].
  exact (proj1 (seedVec_formula p 42 E H)).
Defined.

(** C5 as stated fails on a negative seed: for seed -1 the three components
    are negative, so none lies in [0,1), and the first is not
    [((-1*16807) mod M)/M]. *)
Lemma seedVec_negative_seed :
  let p := set_param "seed" (-1 # 1) params0 in
  let v := seedVec p in
  seed p == inject_Z (-1) /\ (- 2 ^ 31 <= -1 < 2 ^ 31)%Z /\
  v = mkvec3 (-16807 # 2147483647) (-48271 # 2147483647) (-69621 # 2147483647) /\
  ~ (0 <= vx v < 1) /\ ~ (0 <= vy v < 1) /\ ~ (0 <= vz v < 1) /\
  ~ (vx v == (-1 * 16807) mod 2147483647 # 2147483647).
Proof.
  cbv zeta.
  split; [ reflexivity | ]. split; [ lia | ]. split; [ reflexivity | ].
  assert (Hneg : forall q : Q, q < 0 -> ~ (0 <= q < 1))
    by (intros q Hq [Hq0 _]; lra).
  split; [ apply Hneg; reflexivity | ].
  split; [ apply Hneg; reflexivity | ].
  split; [ apply Hneg; reflexivity | ].
  intros H. vm_compute in H. discriminate H.
Qed.

(** C6.  Two distinct integer seeds in [0, 10000) have distinct seed
    vectors: already their first components differ, as rationals and as the
    integers [(s*16807) mod M]. *)
Theorem seedVec_no_collision (p1 p2 : Params) (s1 s2 : Z) :
  seed p1 == inject_Z s1 -> seed p2 == inject_Z s2 ->
  (0 <= s1 < 10000)%Z -> (0 <= s2 < 10000)%Z -> s1 <> s2 ->
  ~ (seedVec p1 =v seedVec p2) /\
  ((s1 * 16807) mod 2147483647, (s1 * 48271) mod 2147483647,
   (s1 * 69621) mod 2147483647)
  <> ((s2 * 16807) mod 2147483647, (s2 * 48271) mod 2147483647,
      (s2 * 69621) mod 2147483647).
Proof.
  intros E1 E2 H1 H2 Hne.
  rewrite (seedVec_int p1 s1 E1) by lia.
  rewrite (seedVec_int p2 s2 E2) by lia.
  split.
  - intros (Hx & _). cbn [vx] in Hx.
    rewrite !Z.rem_small in Hx by lia.
    unfold Qeq in Hx. cbn in Hx. lia.
  - intros Heq. injection Heq as Hx _ _.
    rewrite !Z.mod_small in Hx by lia. lia.
Qed.

Lemma seedVec_no_collision_witness :
  let p1 := set_param "seed" 1 params0 in
  let p2 := set_param "seed" 9999 params0 in
  ~ (seedVec p1 =v seedVec p2).
Proof.
  intros p1 p2.
  exact (proj1 (seedVec_no_collision p1 p2 1 9999
                  (Qeq_refl _) (Qeq_refl _)
                  ltac:(lia) ltac:(lia) ltac:(lia))).
Defined.

(** ** The field respects equality of rationals *)

#[global] Instance veq_Equivalence : Equivalence veq.
Proof.
  split.
  - intros p. repeat split; reflexivity.
  - intros p q (Hx & Hy & Hz). repeat split; now symmetry.
  - intros p q r (Hx & Hy & Hz) (Hx' & Hy' & Hz').
    repeat split; etransitivity; eassumption.
Qed.

#[global] Instance mkvec3_comp : Proper (Qeq ==> Qeq ==> Qeq ==> veq) mkvec3.
Proof. intros x x' Hx y y' Hy z z' Hz. repeat split; assumption. Qed.

#[global] Instance vx_comp : Proper (veq ==> Qeq) vx.
Proof. now intros p q (Hx & Hy & Hz). Qed.

#[global] Instance vy_comp : Proper (veq ==> Qeq) vy.
Proof. now intros p q (Hx & Hy & Hz). Qed.

#[global] Instance vz_comp : Proper (veq ==> Qeq) vz.
Proof. now intros p q (Hx & Hy & Hz). Qed.

#[global] Instance floorQ_comp : Proper (Qeq ==> Qeq) floorQ.
Proof. intros x y E. unfold floorQ. now rewrite E. Qed.

#[global] Instance fract_comp : Proper (Qeq ==> Qeq) fract.
Proof. intros x y E. unfold fract. now rewrite E. Qed.

#[global] Instance mix_comp : Proper (Qeq ==> Qeq ==> Qeq ==> Qeq) mix.
Proof. intros x x' Hx y y' Hy a a' Ha. unfold mix. now rewrite Hx, Hy, Ha. Qed.

#[global] Instance vadd_comp : Proper (veq ==> veq ==> veq) vadd.
Proof. intros p p' Hp q q' Hq. unfold vadd. now rewrite Hp, Hq. Qed.

#[global] Instance vmul_comp : Proper (veq ==> veq ==> veq) vmul.
Proof. intros p p' Hp q q' Hq. unfold vmul. now rewrite Hp, Hq. Qed.

#[global] Instance vscale_comp : Proper (veq ==> Qeq ==> veq) vscale.
Proof. intros p p' Hp s s' Hs. unfold vscale. now rewrite Hp, Hs. Qed.

#[global] Instance vadds_comp : Proper (veq ==> Qeq ==> veq) vadds.
Proof. intros p p' Hp s s' Hs. unfold vadds. now rewrite Hp, Hs. Qed.

#[global] Instance smulv_comp : Proper (Qeq ==> veq ==> veq) smulv.
Proof. intros s s' Hs p p' Hp. unfold smulv. now rewrite Hp, Hs. Qed.

#[global] Instance ssubv_comp : Proper (Qeq ==> veq ==> veq) ssubv.
Proof. intros s s' Hs p p' Hp. unfold ssubv. now rewrite Hp, Hs. Qed.

#[global] Instance yzx_comp : Proper (veq ==> veq) yzx.
Proof. intros p p' Hp. unfold yzx. now rewrite Hp. Qed.

#[global] Instance dot_comp : Proper (veq ==> veq ==> Qeq) dot.
Proof. intros p p' Hp q q' Hq. unfold dot. now rewrite Hp, Hq. Qed.

#[global] Instance vfloor_comp : Proper (veq ==> veq) vfloor.
Proof. intros p p' Hp. unfold vfloor, vmap. now rewrite Hp. Qed.

#[global] Instance vfract_comp : Proper (veq ==> veq) vfract.
Proof. intros p p' Hp. unfold vfract, vmap. now rewrite Hp. Qed.

#[global] Instance hash31_comp (u : Uniforms) : Proper (veq ==> Qeq) (hash31 u).
Proof. intros p p' Hp. unfold hash31. cbv zeta. now rewrite Hp. Qed.

#[global] Instance valueNoise_comp (u : Uniforms) :
  Proper (veq ==> Qeq) (valueNoise u).
Proof. intros p p' Hp. unfold valueNoise. cbv zeta. now rewrite Hp. Qed.

Lemma fbm_loop_comp (u : Uniforms) (n : nat) :
  forall (o : Z) (amp amp' f f' sum sum' : Q) (p p' : vec3),
    amp == amp' -> f == f' -> sum == sum' -> p =v p' ->
    fbm_loop u n o amp f sum p == fbm_loop u n o amp' f' sum' p'.
Proof.
  induction n as [| n IH]; intros o amp amp' f f' sum sum' p p' Ha Hf Hs Hp.
  - exact Hs.
  - cbn [fbm_loop]. destruct (o >=? uOctaves u)%Z; [ exact Hs | ].
    apply IH; try assumption.
    + now rewrite Ha.
    + now rewrite Hf.
    + now rewrite Hs, Ha, Hp, Hf.
Qed.

#[global] Instance fbm_comp (u : Uniforms) : Proper (veq ==> Qeq) (fbm u).
Proof.
  intros p p' Hp. unfold fbm. apply fbm_loop_comp; (reflexivity || assumption).
Qed.

#[global] Instance field_comp (u : Uniforms) : Proper (veq ==> Qeq) (field u).
Proof. intros p p' Hp. unfold field. cbv zeta. now rewrite Hp. Qed.

(** The point of the ray at parameter 0 is its origin. *)
Lemma ray_origin (ro rd : vec3) : ro +v rd *s 0 =v ro.
Proof. unfold vadd, vscale, veq. cbn [vx vy vz]. repeat split; ring. Qed.

Lemma ray_point_comp (ro rd : vec3) (s t : Q) :
  s == t -> ro +v rd *s s =v ro +v rd *s t.
Proof. intros E. now rewrite E. Qed.

(** ** Refining: the bisection loop *)

Section Refining.

Variable u : Uniforms.
Variables ro rd : vec3.

Let d := density u ro rd.


(** The bracket is halved by every iteration and never leaves the one it
    started from. *)
Lemma refine_loop_width (n : nat) (val : Q) :
  forall a b : Q,
    let ab := refine_loop u ro rd n val a b in
    (snd ab - fst ab) * inject_Z (2 ^ Z.of_nat n) == b - a /\
    (a <= b -> a <= fst ab /\ fst ab <= snd ab /\ snd ab <= b).
Proof.
  induction n as [| n IH]; intros a b.
  - cbn. split; [ ring | intros; repeat split; lra ].
  - cbn [refine_loop].
    replace (2 ^ Z.of_nat (S n))%Z with (2 * 2 ^ Z.of_nat n)%Z
      by (rewrite Nat2Z.inj_succ, Z.pow_succ_r; lia).
    rewrite inject_Z_mult. change (inject_Z 2) with 2.
    destruct (Qltb (field u (ro +v rd *s ((1 # 2) * (a + b))) * val) 0).
    + destruct (IH ((1 # 2) * (a + b)) b) as [Hw Hin]. cbv zeta.
      split; [ lra | ].
      intros Hab. destruct Hin as (H1 & H2 & H3); [ lra | ]. repeat split; lra.
    + destruct (IH a ((1 # 2) * (a + b))) as [Hw Hin]. cbv zeta.
      split; [ lra | ].
      intros Hab. destruct Hin as (H1 & H2 & H3); [ lra | ]. repeat split; lra.
Qed.

(** The refined distance is at least 1/32 of the bracket away from both
    ends of the bracket [[t - uStep, t]]. *)
Lemma refine_inside (val t : Q) :
  0 <= uStep u ->
  t - uStep u + uStep u / 32 <= refine u ro rd val t <= t - uStep u / 32.
Proof.
  intros Hs. unfold refine.
  pose proof (refine_loop_width 4 val (t - uStep u) t) as [Hw Hin].
  cbv zeta in Hw, Hin.
  destruct (refine_loop u ro rd 4 val (t - uStep u) t) as [a b].
  cbn [fst snd] in Hw, Hin.
  change (inject_Z (2 ^ Z.of_nat 4)) with 16 in Hw.
  destruct Hin as (H1 & H2 & H3); [ lra | ].
  assert (E : uStep u / 32 == uStep u * (1 # 32)) by (unfold Qdiv; reflexivity).
  rewrite E. split; lra.
Qed.

End Refining.

(** ** Signs *)

Lemma square_nonneg (x : Q) : 0 <= x * x.
Proof.
  destruct (Qlt_le_dec x 0) as [Hneg | Hpos].
  - assert (E : x * x == (- x) * (- x)) by ring.
    rewrite E. apply Qmult_le_0_compat; lra.
  - apply Qmult_le_0_compat; assumption.
Qed.

Lemma pos_mult_pos (x y : Q) : 0 < x -> 0 < y -> 0 < x * y.
Proof.
  intros Hx Hy.
  setoid_replace 0 with (0 * y) by ring.
  apply Qmult_lt_compat_r; assumption.
Qed.



(** ** Stepping: the marching loop, one iteration at a time *)

#[global] Instance density_comp (u : Uniforms) (ro rd : vec3) :
  Proper (Qeq ==> Qeq) (density u ro rd).
Proof. intros s t E. unfold density. now rewrite E. Qed.

Section Stepping.

Variable u : Uniforms.
Variables ro rd : vec3.

Let d := density u ro rd.

Lemma refine_loop_left (n : nat) (val a b : Q) :
  d ((1 # 2) * (a + b)) * val < 0 ->
  refine_loop u ro rd (S n) val a b
  = refine_loop u ro rd n val ((1 # 2) * (a + b)) b.
Proof.
  intros H. cbn [refine_loop]. apply Qltb_true in H.
  unfold d, density in H. now rewrite H.
Qed.

Lemma refine_loop_right (n : nat) (val a b : Q) :
  0 <= d ((1 # 2) * (a + b)) * val ->
  refine_loop u ro rd (S n) val a b
  = refine_loop u ro rd n val a ((1 # 2) * (a + b)).
Proof.
  intros H. cbn [refine_loop]. apply Qltb_false in H.
  unfold d, density in H. now rewrite H.
Qed.

(** The step budget is spent: [if (i >= uMaxSteps) break;] *)
Lemma march_loop_budget (n : nat) (i : Z) (t pv : Q) :
  (uMaxSteps u <= i)%Z ->
  march_loop u ro rd (S n) i t pv = mkOut t (-1 # 1) i StepBudget.
Proof.
  intros H. cbn [march_loop].
  destruct (Z.geb_spec i (uMaxSteps u)); [ reflexivity | lia ].
Qed.

(** A sign change: refine and [break]. *)
Lemma march_loop_cross (n : nat) (i : Z) (t pv : Q) :
  (i < uMaxSteps u)%Z -> d t * pv < 0 ->
  march_loop u ro rd (S n) i t pv
  = mkOut t (refine u ro rd (d t) t) i Crossed.
Proof.
  intros Hi H. cbn [march_loop].
  destruct (Z.geb_spec i (uMaxSteps u)); [ lia | ].
  apply Qltb_true in H. unfold d, density in H. now rewrite H.
Qed.

(** No sign change and the distance budget is passed. *)
Lemma march_loop_far (n : nat) (i : Z) (t pv : Q) :
  (i < uMaxSteps u)%Z -> 0 <= d t * pv -> uMaxDist u < t + uStep u ->
  march_loop u ro rd (S n) i t pv
  = mkOut (t + uStep u) (-1 # 1) i DistBudget.
Proof.
  intros Hi H Hd. cbn [march_loop].
  destruct (Z.geb_spec i (uMaxSteps u)); [ lia | ].
  apply Qltb_false in H. unfold d, density in H. rewrite H.
  apply Qltb_true in Hd. now rewrite Hd.
Qed.

(** No sign change and the distance budget is not passed: next iteration. *)
Lemma march_loop_next (n : nat) (i : Z) (t pv : Q) :
  (i < uMaxSteps u)%Z -> 0 <= d t * pv -> t + uStep u <= uMaxDist u ->
  march_loop u ro rd (S n) i t pv
  = march_loop u ro rd n (i + 1)%Z (t + uStep u) (d t).
Proof.
  intros Hi H Hd. cbn [march_loop].
  destruct (Z.geb_spec i (uMaxSteps u)); [ lia | ].
  apply Qltb_false in H. unfold d, density in H. rewrite H.
  apply Qltb_false in Hd. now rewrite Hd.
Qed.

(** The four ways an iteration can go. *)
Lemma march_loop_cases (n : nat) (i : Z) (t pv : Q) :
  let o := march_loop u ro rd (S n) i t pv in
  ((uMaxSteps u <= i)%Z /\ o = mkOut t (-1 # 1) i StepBudget) \/
  ((i < uMaxSteps u)%Z /\ d t * pv < 0 /\
   o = mkOut t (refine u ro rd (d t) t) i Crossed) \/
  ((i < uMaxSteps u)%Z /\ 0 <= d t * pv /\ uMaxDist u < t + uStep u /\
   o = mkOut (t + uStep u) (-1 # 1) i DistBudget) \/
  ((i < uMaxSteps u)%Z /\ 0 <= d t * pv /\ t + uStep u <= uMaxDist u /\
   o = march_loop u ro rd n (i + 1)%Z (t + uStep u) (d t)).
Proof.
  intros o. subst o.
  destruct (Z_lt_le_dec i (uMaxSteps u)) as [Hi | Hi].
  - right. destruct (Qlt_le_dec (d t * pv) 0) as [Hc | Hc].
    + left. auto using march_loop_cross.
    + right. destruct (Qlt_le_dec (uMaxDist u) (t + uStep u)) as [Hd | Hd].
      * left. auto using march_loop_far.
      * right. auto using march_loop_next.
  - left. auto using march_loop_budget.
Qed.

(** On the first iteration the density of the origin meets itself. *)
Lemma first_iteration_no_cross : 0 <= d 0 * field u ro.
Proof.
  assert (E : d 0 == field u ro)
    by (unfold d, density; now rewrite ray_origin).
  rewrite E. apply square_nonneg.
Qed.

(** The loop leaves [hitT] at -1 unless it refined a crossing, and then
    [hitT] is the refined distance of the bracket that ends at [t]. *)
Lemma march_loop_hitT (n : nat) :
  forall (i : Z) (t pv : Q),
    let o := march_loop u ro rd n i t pv in
    (out_exit o <> Crossed /\ out_hitT o = -1 # 1) \/
    (out_exit o = Crossed /\
     out_hitT o = refine u ro rd (d (out_t o)) (out_t o)).
Proof.
  induction n as [| n IH]; intros i t pv o; subst o.
  - left. cbn. split; [ discriminate | reflexivity ].
  - destruct (march_loop_cases n i t pv)
      as [(_ & E) | [(_ & _ & E) | [(_ & _ & _ & E) | (_ & _ & _ & E)]]];
      rewrite E.
    + left. cbn. split; [ discriminate | reflexivity ].
    + right. cbn. split; reflexivity.
    + left. cbn. split; [ discriminate | reflexivity ].
    + apply IH.
Qed.

(** The counter never passes the constant loop bound. *)
Lemma march_loop_counter (n : nat) :
  forall (i : Z) (t pv : Q),
    (i <= out_i (march_loop u ro rd n i t pv) <= i + Z.of_nat n)%Z.
Proof.
  induction n as [| n IH]; intros i t pv.
  - cbn. lia.
  - destruct (march_loop_cases n i t pv)
      as [(_ & E) | [(_ & _ & E) | [(_ & _ & _ & E) | (_ & _ & _ & E)]]];
      rewrite E; cbn [out_i]; try lia.
    specialize (IH (i + 1)%Z (t + uStep u) (d t)). lia.
Qed.

(** From the second iteration on: [prevVal] is the density one step back,
    [t] is at least one step, and the counter is at least 1.  A crossing
    then has a bracket with strictly opposite end densities that starts at
    or after the origin. *)
Lemma march_loop_crossed (n : nat) :
  0 <= uStep u ->
  forall (i : Z) (t pv : Q),
    (1 <= i)%Z -> uStep u <= t -> pv == d (t - uStep u) ->
    let o := march_loop u ro rd n i t pv in
    out_exit o = Crossed ->
    (1 <= out_i o)%Z /\ uStep u <= out_t o /\
    opposite_signs (d (out_t o - uStep u)) (d (out_t o)).
Proof.
  intros Hs. induction n as [| n IH]; intros i t pv Hi Ht Hpv o Hex; subst o.
  - discriminate Hex.
  - destruct (march_loop_cases n i t pv)
      as [(_ & E) | [(_ & Hc & E) | [(_ & _ & _ & E) | (_ & _ & _ & E)]]];
      rewrite E in *; cbn [out_exit out_i out_t] in *; try discriminate.
    + repeat split; try assumption. unfold opposite_signs.
      rewrite <- Hpv, Qmult_comm. exact Hc.
    + apply IH; [ lia | lra | | exact Hex ].
      apply density_comp. ring.
Qed.

End Stepping.

(** ** Hit or Miss *)

Lemma march_result_hit (o : MarchOut) (h : Q) :
  march_result o = Hit h -> 0 < out_hitT o /\ h = out_hitT o.
Proof.
  unfold march_result. destruct (Qltb_spec 0 (out_hitT o)) as [Hpos | Hneg].
  - intros E. injection E as E. split; [ exact Hpos | now symmetry ].
  - discriminate.
Qed.

Lemma march_result_positive (o : MarchOut) :
  0 < out_hitT o -> march_result o = Hit (out_hitT o).
Proof. intros H. unfold march_result. apply Qltb_true in H. now rewrite H. Qed.

Lemma march_result_sentinel (o : MarchOut) :
  out_hitT o = -1 # 1 -> march_result o = Miss (out_t o).
Proof. intros H. unfold march_result. rewrite H. reflexivity. Qed.

(** The loop started as [main] starts it, for any constant loop bound. *)
Lemma march_start (u : Uniforms) (ro rd : vec3) (n : nat) :
  0 < uStep u ->
  let o := march_loop u ro rd n 0%Z 0 (field u ro) in
  (out_exit o = Crossed ->
   (1 <= out_i o)%Z /\
   uStep u / 32 <= out_hitT o /\ 0 < out_hitT o /\
   out_t o - uStep u < out_hitT o < out_t o /\
   opposite_signs (density u ro rd (out_t o - uStep u))
                  (density u ro rd (out_t o)) /\
   march_result o = Hit (out_hitT o)) /\
  (forall h : Q,
     march_result o = Hit h -> out_exit o = Crossed /\ h = out_hitT o) /\
  (out_exit o <> Crossed ->
   out_hitT o = -1 # 1 /\ march_result o = Miss (out_t o)).
Proof.
  intros Hs o.
  assert (Hs32 : 0 < uStep u / 32) by (apply Qlt_shift_div_l; lra).
  pose proof (march_loop_hitT u ro rd n 0%Z 0 (field u ro)) as Hhit.
  cbv zeta in Hhit. fold o in Hhit.
  split; [ | split ].
  - intros Hex.
    assert (Hc : (1 <= out_i o)%Z /\ uStep u <= out_t o /\
                 opposite_signs (density u ro rd (out_t o - uStep u))
                                (density u ro rd (out_t o))).
    { subst o. destruct n as [| n]; [ discriminate Hex | ].
      pose proof (first_iteration_no_cross u ro rd) as H0.
      destruct (march_loop_cases u ro rd n 0%Z 0 (field u ro))
        as [(_ & E) | [(_ & Hc & E) | [(_ & _ & _ & E) | (_ & _ & _ & E)]]];
        rewrite E in Hex |- *; cbn [out_exit] in Hex; try discriminate.
      - exfalso. lra.
      - apply march_loop_crossed; [ lra | lia | lra | | exact Hex ].
        apply density_comp. ring. }
    destruct Hc as (Hi & Ht & Hopp).
    destruct Hhit as [(Hne & _) | (_ & Hh)]; [ contradiction | ].
    pose proof (refine_inside u ro rd (density u ro rd (out_t o)) (out_t o)
                  (Qlt_le_weak _ _ Hs)) as [Hlo Hhi].
    rewrite <- Hh in Hlo, Hhi.
    assert (Hpos : 0 < out_hitT o) by lra.
    repeat split; try assumption; try lra.
    now apply march_result_positive.
  - intros h Hh. apply march_result_hit in Hh. destruct Hh as [Hpos Heq].
    split; [ | exact Heq ].
    destruct Hhit as [(_ & Hm) | (Hex & _)]; [ | exact Hex ].
    rewrite Hm in Hpos. discriminate Hpos.
  - intros Hne. destruct Hhit as [(_ & Hm) | (Hex & _)]; [ | contradiction ].
    split; [ exact Hm | now apply march_result_sentinel ].
Qed.

(** C10.  With a positive step, a crossing is never detected on the first
    iteration (the counter is at least 1, since there the density of the
    origin is compared with itself); the distance refined from a crossing
    is at least [uStep/32], hence positive, and strictly inside the bracket
    [[t - uStep, t]], whose end densities are strictly opposite in sign; so
    the test [hitT > 0.0] reads every refined crossing as a Hit, reads a
    Hit only from a refined crossing, and reads the sentinel -1 as a
    Miss. *)
Theorem hit_is_positive (u : Uniforms) (ro rd : vec3) :
  0 < uStep u ->
  let o := march u ro rd in
  (out_exit o = Crossed ->
   (1 <= out_i o)%Z /\
   uStep u / 32 <= out_hitT o /\ 0 < out_hitT o /\
   out_t o - uStep u < out_hitT o < out_t o /\
   opposite_signs (density u ro rd (out_t o - uStep u))
                  (density u ro rd (out_t o)) /\
   march_result o = Hit (out_hitT o)) /\
  (forall h : Q,
     march_result o = Hit h -> out_exit o = Crossed /\ h = out_hitT o) /\
  (out_exit o <> Crossed ->
   out_hitT o = -1 # 1 /\ march_result o = Miss (out_t o)).
Proof. intros Hs. exact (march_start u ro rd 512 Hs). Qed.

(** ** The distance budget *)

(** Uniforms that agree on what the field reads give the same field. *)
Section FieldAgreement.

Variables u1 u2 : Uniforms.
Hypothesis Htime : uTime u1 = uTime u2.
Hypothesis Hseed : uSeedVec u1 = uSeedVec u2.
Hypothesis Hthreshold : uThreshold u1 = uThreshold u2.
Hypothesis Hfreq : uFreq u1 = uFreq u2.
Hypothesis Hoctaves : uOctaves u1 = uOctaves u2.
Hypothesis Hgain : uGain u1 = uGain u2.
Hypothesis Hlacunarity : uLacunarity u1 = uLacunarity u2.

Lemma valueNoise_agree (p : vec3) : valueNoise u1 p = valueNoise u2 p.
Proof. unfold valueNoise, hash31. rewrite Hseed. reflexivity. Qed.

Lemma fbm_loop_agree (n : nat) :
  forall (o : Z) (amp f sum : Q) (p : vec3),
    fbm_loop u1 n o amp f sum p = fbm_loop u2 n o amp f sum p.
Proof.
  induction n as [| n IH]; intros o amp f sum p; [ reflexivity | ].
  cbn [fbm_loop].
  rewrite Hoctaves, Hgain, Hlacunarity, valueNoise_agree, IH. reflexivity.
Qed.

Lemma field_agree (p : vec3) : field u1 p = field u2 p.
Proof.
  unfold field, fbm. rewrite Htime, Hthreshold, Hfreq, fbm_loop_agree.
  reflexivity.
Qed.

End FieldAgreement.

(** Two marches over the same field with the same step and step budget,
    the second with the larger distance budget. *)
Section LargerBudget.

Variables u1 u2 : Uniforms.
Variables ro rd : vec3.
Hypothesis Hfield : forall p : vec3, field u1 p = field u2 p.
Hypothesis Hstep : uStep u1 = uStep u2.
Hypothesis Hsteps : uMaxSteps u1 = uMaxSteps u2.
Hypothesis Hdist : uMaxDist u1 <= uMaxDist u2.

Lemma refine_loop_agree (n : nat) :
  forall val a b : Q,
    refine_loop u1 ro rd n val a b = refine_loop u2 ro rd n val a b.
Proof.
  induction n as [| n IH]; intros val a b; [ reflexivity | ].
  cbn [refine_loop]. rewrite Hfield, !IH. reflexivity.
Qed.

Lemma refine_agree (val t : Q) : refine u1 ro rd val t = refine u2 ro rd val t.
Proof. unfold refine. rewrite Hstep, refine_loop_agree. reflexivity. Qed.

Lemma march_loop_larger (n : nat) :
  forall (i : Z) (t pv : Q),
    out_exit (march_loop u1 ro rd n i t pv) = Crossed ->
    march_loop u2 ro rd n i t pv = march_loop u1 ro rd n i t pv.
Proof.
  induction n as [| n IH]; intros i t pv Hex; [ discriminate Hex | ].
  assert (Hd : density u1 ro rd t = density u2 ro rd t)
    by (unfold density; apply Hfield).
  destruct (march_loop_cases u1 ro rd n i t pv)
    as [(_ & E) | [(Hi & Hc & E) | [(_ & _ & _ & E) | (Hi & Hc & Hf & E)]]];
    rewrite E in Hex |- *; cbn [out_exit] in Hex; try discriminate.
  - rewrite Hd, Hsteps in *.
    rewrite (march_loop_cross u2 ro rd n i t pv Hi Hc), refine_agree.
    reflexivity.
  - rewrite Hd, Hsteps, Hstep in *.
    rewrite (march_loop_next u2 ro rd n i t pv Hi Hc) by lra.
    apply IH. exact Hex.
Qed.

Lemma march_loop_larger_hit (n : nat) (i : Z) (t pv h : Q) :
  march_result (march_loop u1 ro rd n i t pv) = Hit h ->
  march_result (march_loop u2 ro rd n i t pv) = Hit h.
Proof.
  intros Hhit.
  assert (Hex : out_exit (march_loop u1 ro rd n i t pv) = Crossed).
  { apply march_result_hit in Hhit. destruct Hhit as [Hpos _].
    destruct (march_loop_hitT u1 ro rd n i t pv)
      as [(_ & Hm) | (Hex & _)]; [ | exact Hex ].
    rewrite Hm in Hpos. discriminate Hpos. }
  rewrite (march_loop_larger n _ _ _ Hex). exact Hhit.
Qed.

End LargerBudget.

Lemma march_unfold (u : Uniforms) (ro rd : vec3) :
  march u ro rd = march_loop u ro rd 512 0%Z 0 (field u ro).
Proof. reflexivity. Qed.

(** C3.  With everything else fixed, a larger [uMaxDist] never turns a Hit
    into a Miss and returns the same Hit distance. *)
Theorem maxDist_monotone (u : Uniforms) (ro rd : vec3) (d1 d2 h : Q) :
  d1 <= d2 ->
  march_result (march (set_uMaxDist d1 u) ro rd) = Hit h ->
  march_result (march (set_uMaxDist d2 u) ro rd) = Hit h.
Proof.
  intros Hd.
  assert (Hfield : forall p : vec3,
            field (set_uMaxDist d1 u) p = field (set_uMaxDist d2 u) p)
    by (apply field_agree; reflexivity).
  rewrite !march_unfold, <- Hfield.
  apply (march_loop_larger_hit (set_uMaxDist d1 u) (set_uMaxDist d2 u) ro rd
           Hfield eq_refl eq_refl Hd).
Qed.

(** ** The step budget and the constant loop bound *)

Lemma neg_mult_neg (x y : Q) : x < 0 -> y < 0 -> 0 < x * y.
Proof.
  intros Hx Hy. setoid_replace (x * y) with ((- x) * (- y)) by ring.
  apply pos_mult_pos; lra.
Qed.

(** Where the field is negative everywhere the loop finds no crossing, and
    with both budgets large enough it runs until the constant bound. *)
Lemma march_loop_no_surface (u : Uniforms) (ro rd : vec3) (n : nat) :
  (forall p : vec3, field u p < 0) -> 0 <= uStep u ->
  forall (i : Z) (t pv : Q),
    pv < 0 ->
    (i + Z.of_nat n <= uMaxSteps u)%Z ->
    t + inject_Z (Z.of_nat n) * uStep u <= uMaxDist u ->
    let o := march_loop u ro rd n i t pv in
    out_exit o = LoopBound /\ out_i o = (i + Z.of_nat n)%Z /\
    out_t o == t + inject_Z (Z.of_nat n) * uStep u /\
    out_hitT o = -1 # 1.
Proof.
  intros Hneg Hs. induction n as [| n IH]; intros i t pv Hpv Hi Ht o; subst o.
  - cbn. repeat split; try reflexivity; [ lia | ring ].
  - assert (Hn : inject_Z (Z.of_nat (S n)) == inject_Z (Z.of_nat n) + 1).
    { rewrite Nat2Z.inj_succ, <- Z.add_1_r, inject_Z_plus. reflexivity. }
    rewrite Hn in Ht.
    assert (Hnn : 0 <= inject_Z (Z.of_nat n) * uStep u).
    { apply Qmult_le_0_compat; [ | exact Hs ].
      change 0 with (inject_Z 0). rewrite <- Zle_Qle. lia. }
    assert (Hd : density u ro rd t < 0) by apply Hneg.
    pose proof (neg_mult_neg _ _ Hd Hpv) as Hprod.
    destruct (march_loop_cases u ro rd n i t pv)
      as [(Hb & _) | [(_ & Hc & _) | [(_ & _ & Hf & _) | (_ & _ & _ & E)]]].
    + lia.
    + lra.
    + lra.
    + rewrite E.
      destruct (IH (i + 1)%Z (t + uStep u) (density u ro rd t) Hd)
        as (H1 & H2 & H3 & H4); [ lia | lra | ].
      repeat split; [ exact H1 | lia | | exact H4 ].
      rewrite H3, Hn. ring.
Qed.

(** The counter of the marching loop never passes 512. *)
Lemma march_counter_bound (u : Uniforms) (ro rd : vec3) :
  (0 <= out_i (march u ro rd) <= 512)%Z.
Proof.
  rewrite march_unfold.
  pose proof (march_loop_counter u ro rd 512 0%Z 0 (field u ro)) as H.
  change (Z.of_nat 512) with 512%Z in H. lia.
Qed.

(** The starting parameters with the threshold raised above the largest
    value of [fbm]: the field is negative everywhere. *)
Lemma no_surface_field (c : FrameContext) (p : vec3) :
  field (uniforms (set_param "threshold" 3 params0) c) p < 0.
Proof.
  set (u := uniforms (set_param "threshold" 3 params0) c).
  unfold field. cbv zeta.
  assert (Hg : 0 <= uGain u) by (cbn; lra).
  pose proof (fbm_loop_bounds u (p +v mkvec3 0 0 ((15 # 100) * uTime u)) 8 Hg
                0%Z (1 # 2) (uFreq u) 0 (ltac:(lra) : 0 <= 1 # 2)) as [_ Hhi].
  fold (fbm u (p +v mkvec3 0 0 ((15 # 100) * uTime u))) in Hhi.
  assert (Hb : 0 + (1 # 2) * geom (uGain u) 8 < uThreshold u)
    by (vm_compute; reflexivity).
  lra.
Qed.

(** C2, evaluated.  With the starting parameters ([maxSteps] 1024,
    [maxDist] 200, [stepSize] 0.01) and a threshold of 3, on every ray of
    every frame the loop stops at the constant bound: after 512 iterations,
    at [t] = 5.12, with 512 of the 1024 steps left unused and [t] far below
    [uMaxDist], and the pixel is shaded as a Miss. *)
Theorem march_stops_at_512 (c : FrameContext) (ro rd : vec3) :
  let u := uniforms (set_param "threshold" 3 params0) c in
  let o := march u ro rd in
  uMaxSteps u = 1024%Z /\ uMaxDist u = 200 /\ uStep u = 1 # 100 /\
  out_exit o = LoopBound /\ out_i o = 512%Z /\ out_t o == 512 # 100 /\
  (out_i o < uMaxSteps u)%Z /\ out_t o <= uMaxDist u /\
  march_result o = Miss (out_t o).
Proof.
  intros u o.
  assert (Hsteps : uMaxSteps u = 1024%Z) by reflexivity.
  assert (Hdist : uMaxDist u = 200) by reflexivity.
  assert (Hstep : uStep u = 1 # 100) by reflexivity.
  assert (Hrun : out_exit o = LoopBound /\ out_i o = (0 + Z.of_nat 512)%Z /\
                 out_t o == 0 + inject_Z (Z.of_nat 512) * uStep u /\
                 out_hitT o = -1 # 1).
  { subst o. rewrite march_unfold.
    apply march_loop_no_surface.
    - intros p. apply no_surface_field.
    - rewrite Hstep. lra.
    - apply no_surface_field.
    - rewrite Hsteps. change (Z.of_nat 512) with 512%Z. lia.
    - rewrite Hstep, Hdist. change (Z.of_nat 512) with 512%Z.
      vm_compute. discriminate. }
  destruct Hrun as (Hex & Hi & Ht & Hh).
  change (Z.of_nat 512) with 512%Z in Hi, Ht.
  rewrite Hstep in Ht.
  assert (Ht' : out_t o == 512 # 100) by (rewrite Ht; reflexivity).
  rewrite Hsteps, Hdist.
  repeat split; try assumption; try reflexivity.
  - lia.
  - rewrite Ht'. vm_compute. discriminate.
  - now apply march_result_sentinel.
Qed.

(** ** A concrete cave *)

Lemma floorQ_unit (z : Q) : 0 <= z < 1 -> floorQ z == 0.
Proof.
  intros [H0 H1]. unfold floorQ.
  pose proof (Qfloor_le z) as Hlo.
  pose proof (Qlt_floor z) as Hhi.
  assert (Hz : Qfloor z = 0%Z).
  { assert (inject_Z (Qfloor z) < inject_Z 1) by (change (inject_Z 1) with 1; lra).
    assert (inject_Z 0 < inject_Z (Qfloor z + 1)) by (change (inject_Z 0) with 0; lra).
    rewrite <- Zlt_Qlt in *. lia. }
  rewrite Hz. reflexivity.
Qed.

Lemma fract_unit (z : Q) : 0 <= z < 1 -> fract z == z.
Proof. intros H. unfold fract. rewrite (floorQ_unit z H). ring. Qed.

(** With no weight on the x and y axes the blend of the eight corners is
    the blend of the two on the z axis. *)
Lemma trilinear_axis (n000 n100 n010 n110 n001 n101 n011 n111 wx wy wz : Q) :
  wx == 0 -> wy == 0 ->
  mix (mix (mix n000 n100 wx) (mix n010 n110 wx) wy)
      (mix (mix n001 n101 wx) (mix n011 n111 wx) wy) wz
  == mix n000 n001 wz.
Proof. intros Hx Hy. unfold mix. rewrite Hx, Hy. ring. Qed.

(** On the z axis inside the first lattice cell only the corners (0,0,0)
    and (0,0,1) weigh in. *)
Lemma valueNoise_axis (u : Uniforms) (z : Q) :
  0 <= z < 1 ->
  valueNoise u (mkvec3 0 0 z)
  == mix (hash31 u (mkvec3 0 0 0)) (hash31 u (mkvec3 0 0 1))
         (z * z * (3 - 2 * z)).
Proof.
  intros Hz. unfold valueNoise. cbv zeta.
  rewrite trilinear_axis by reflexivity.
  pose proof (floorQ_unit z Hz) as Hfl.
  pose proof (fract_unit z Hz) as Hfr.
  apply mix_comp.
  - apply hash31_comp. unfold vfloor, vmap, vadd, veq. cbn [vx vy vz].
    split; [ reflexivity | split; [ reflexivity | ] ]. rewrite Hfl. reflexivity.
  - apply hash31_comp. unfold vfloor, vmap, vadd, veq. cbn [vx vy vz].
    split; [ reflexivity | split; [ reflexivity | ] ]. rewrite Hfl. reflexivity.
  - unfold vmul, ssubv, smulv, vfract, vmap. cbn [vx vy vz].
    rewrite Hfr. reflexivity.
Qed.

Section Cave.

Variable u : Uniforms.
Hypothesis Htime : uTime u = 0.
Hypothesis Hseed : uSeedVec u = mkvec3 (0 # 2147483647) (0 # 2147483647) (0 # 2147483647).
Hypothesis Hthreshold : uThreshold u = cave_threshold.
Hypothesis Hfreq : uFreq u = 1.
Hypothesis Hoctaves : uOctaves u = 1%Z.
Hypothesis Hsteps : uMaxSteps u = 1024%Z.
Hypothesis Hstep : uStep u = 1 # 4.
Hypothesis Hdist : 1 # 4 <= uMaxDist u.

Let d := density u origin down_z.

Lemma cave_hash000 : hash31 u (mkvec3 0 0 0) == 0.
Proof. unfold hash31. rewrite Hseed. vm_compute. reflexivity. Qed.

Lemma cave_hash001 :
  hash31 u (mkvec3 0 0 1) == 256500857456466261 # 500000000000000000.
Proof. unfold hash31. rewrite Hseed. vm_compute. reflexivity. Qed.

(** The density along the ray inside the first cell. *)
Lemma cave_density (z : Q) :
  0 <= z < 1 ->
  d z == (256500857456466261 # 1000000000000000000) * (z * z * (3 - 2 * z))
         - cave_threshold.
Proof.
  intros Hz. unfold d, density, field. cbv zeta.
  rewrite fbm_terms, Hoctaves, Hfreq, Htime, Hthreshold.
  change (octaves_run 1) with 1%nat. cbn [octave_terms fold_left].
  assert (Hp : (origin +v down_z *s z +v mkvec3 0 0 ((15 # 100) * 0)) *s 1
               =v mkvec3 0 0 z).
  { unfold origin, down_z, vadd, vscale, veq. cbn [vx vy vz].
    split; [ | split ]; ring. }
  rewrite Hp, (valueNoise_axis u z Hz), cave_hash000, cave_hash001.
  unfold mix. ring.
Qed.

(** The sign of the density is the sign of [w(z) - 11/256], where
    [w(z) = z*z*(3 - 2z)] is the blend weight. *)
Lemma cave_density_factor (z : Q) :
  0 <= z < 1 ->
  d z == (256500857456466261 # 1000000000000000000)
         * (z * z * (3 - 2 * z) - (11 # 256)).
Proof.
  intros Hz. rewrite (cave_density z Hz). unfold cave_threshold. ring.
Qed.

Lemma cave_negative (z : Q) :
  0 <= z < 1 -> z * z * (3 - 2 * z) < 11 # 256 -> d z < 0.
Proof.
  intros Hz Hw. rewrite (cave_density_factor z Hz).
  assert (0 < (256500857456466261 # 1000000000000000000)
              * ((11 # 256) - z * z * (3 - 2 * z)))
    by (apply pos_mult_pos; [ reflexivity | lra ]).
  lra.
Qed.

Lemma cave_positive (z : Q) :
  0 <= z < 1 -> 11 # 256 < z * z * (3 - 2 * z) -> 0 < d z.
Proof.
  intros Hz Hw. rewrite (cave_density_factor z Hz).
  apply pos_mult_pos; [ reflexivity | lra ].
Qed.

Lemma cave_zero (z : Q) :
  0 <= z < 1 -> z * z * (3 - 2 * z) == 11 # 256 -> d z == 0.
Proof. intros Hz Hw. rewrite (cave_density_factor z Hz), Hw. ring. Qed.

Lemma pos_mult_neg (x y : Q) : 0 < x -> y < 0 -> x * y < 0.
Proof.
  intros Hx Hy. assert (0 < x * (- y)) by (apply pos_mult_pos; lra).
  assert (E : x * (- y) == - (x * y)) by ring. lra.
Qed.

Ltac closed_Q :=
  repeat match goal with |- _ /\ _ => split end;
  vm_compute; first [ reflexivity | discriminate ].

(** The march down the z axis: no crossing at the origin, a crossing on the
    second iteration, refined to 15/128. *)
Lemma cave_march :
  let o := march u origin down_z in
  out_exit o = Crossed /\ out_i o = 1%Z /\ out_t o == 1 # 4 /\
  out_hitT o == 15 # 128 /\ march_result o = Hit (out_hitT o).
Proof.
  intros o. subst o. rewrite march_unfold.
  assert (Hval : 0 < d (0 + (1 # 4))) by (apply cave_positive; closed_Q).
  assert (H0 : d 0 < 0) by (apply cave_negative; closed_Q).
  change 512%nat with (S (S 510)).
  rewrite (march_loop_next u origin down_z (S 510) 0%Z 0 (field u origin));
    [ | rewrite Hsteps; lia | apply first_iteration_no_cross
      | rewrite Hstep; lra ].
  rewrite Hstep.
  rewrite (march_loop_cross u origin down_z 510);
    [ | rewrite Hsteps; lia | apply pos_mult_neg; assumption ].
  cbn [out_exit out_i out_t out_hitT].
  assert (Hhit : refine u origin down_z (d (0 + (1 # 4))) (0 + (1 # 4))
                 == 15 # 128).
  { unfold refine. rewrite Hstep.
    rewrite refine_loop_right.
    2:{ fold d. rewrite (cave_zero ((1 # 2) * (0 + (1 # 4) - (1 # 4) + (0 + (1 # 4)))))
          by closed_Q. lra. }
    rewrite refine_loop_left
      by (rewrite Qmult_comm; apply pos_mult_neg;
          [ exact Hval | apply cave_negative; closed_Q ]).
    rewrite refine_loop_left
      by (rewrite Qmult_comm; apply pos_mult_neg;
          [ exact Hval | apply cave_negative; closed_Q ]).
    rewrite refine_loop_left
      by (rewrite Qmult_comm; apply pos_mult_neg;
          [ exact Hval | apply cave_negative; closed_Q ]).
    cbn [refine_loop]. vm_compute. reflexivity. }
  fold d.
  split; [ reflexivity | ]. split; [ reflexivity | ].
  split; [ reflexivity | ]. split; [ exact Hhit | ].
  apply march_result_positive. cbn [out_hitT]. rewrite Hhit. reflexivity.
Qed.


End Cave.

(** The cave of [cave_params], with any distance budget of at least one
    step, is such a cave. *)
Lemma cave_uniforms_march (dm : Q) :
  1 # 4 <= dm ->
  let o := march (set_uMaxDist dm cave_uniforms) origin down_z in
  out_exit o = Crossed /\ out_i o = 1%Z /\ out_t o == 1 # 4 /\
  out_hitT o == 15 # 128 /\ march_result o = Hit (out_hitT o).
Proof. intros Hdm. apply cave_march; first [ reflexivity | exact Hdm ]. Qed.





Lemma hit_is_positive_witness :
  let u := set_uMaxDist 200 cave_uniforms in
  let o := march u origin down_z in
  0 < uStep u /\ out_exit o = Crossed /\
  uStep u / 32 <= out_hitT o /\ march_result o = Hit (out_hitT o).
Proof.
  intros u o.
  assert (Hs : 0 < uStep u) by reflexivity.
  assert (Hex : out_exit o = Crossed)
    by exact (proj1 (cave_uniforms_march 200 ltac:(vm_compute; discriminate))).
  destruct (proj1 (hit_is_positive u origin down_z Hs) Hex)
    as (_ & Hlo & _ & _ & _ & Hres).
  split; [ exact Hs | ]. split; [ exact Hex | ].
  split; [ exact Hlo | exact Hres ].
Defined.

Lemma maxDist_monotone_witness :
  let u := cave_uniforms in
  let h := out_hitT (march (set_uMaxDist 1 u) origin down_z) in
  1 <= 200 /\
  march_result (march (set_uMaxDist 1 u) origin down_z) = Hit h /\
  march_result (march (set_uMaxDist 200 u) origin down_z) = Hit h.
Proof.
  intros u h.
  assert (Hd : 1 <= 200) by (vm_compute; discriminate).
  assert (H1 : march_result (march (set_uMaxDist 1 u) origin down_z) = Hit h)
    by exact (proj2 (proj2 (proj2 (proj2
               (cave_uniforms_march 1 ltac:(vm_compute; discriminate)))))).
  split; [ exact Hd | ]. split; [ exact H1 | ].
  exact (maxDist_monotone u origin down_z 1 200 h Hd H1).
Defined.

(** ** Tonemap *)











(** ** Parameter snapshots *)

(** With a distance budget below the first step the march leaves on the
    first distance test. *)
Lemma march_short_budget (u : Uniforms) (ro rd : vec3) :
  (0 < uMaxSteps u)%Z -> uMaxDist u < 0 + uStep u ->
  march u ro rd = mkOut (0 + uStep u) (-1 # 1) 0%Z DistBudget.
Proof.
  intros Hsteps Hdist. rewrite march_unfold.
  change 512%nat with (S 511).
  apply march_loop_far;
    [ exact Hsteps | apply first_iteration_no_cross | exact Hdist ].
Qed.


Lemma missColor_finite_zero (expQ : Q -> Q) (u : Uniforms) (t : Q) :
  uMaxDist u == 0 -> missColor_finite expQ u t = None.
Proof.
  intros Hd. unfold missColor_finite, div_finite.
  apply Qeq_eq_bool in Hd. now rewrite Hd.
Qed.



(** The query [?maxDist=0] is not rejected either: the frame drawn next
    reads [uMaxDist = 0], the centre pixel is a Miss at [t = 0.01], and the
    divisions of its fog term are by zero. *)
Lemma zero_maxDist_not_finite (expQ : Q -> Q) :
  let p := url_params [("maxDist"%string, 0)] params0 in
  let u := uniforms p frame0 in
  uMaxDist u = 0 /\
  march_result (march u origin down_z) = Miss (0 + (1 # 100)) /\
  missColor_finite expQ u (0 + (1 # 100)) = None.
Proof.
  intros p u.
  split; [ reflexivity | ]. split.
  - assert (Hm : march u origin down_z
                 = mkOut (0 + uStep u) (-1 # 1) 0%Z DistBudget)
      by (apply march_short_budget; reflexivity).
    rewrite Hm. reflexivity.
  - apply missColor_finite_zero. reflexivity.
Qed.


(** * Further properties of the marcher *)

Ltac split_all := repeat match goal with |- _ /\ _ => split end.

(** ** Which crossing the march reports *)

Lemma prev_at_shift (u : Uniforms) (ro rd : vec3) (pv t : Q) (j : nat) :
  prev_at u ro rd (density u ro rd t) (t + uStep u) j
  = prev_at u ro rd pv t (S j).
Proof. destruct j; reflexivity. Qed.

(** A loop that leaves by a crossing leaves at the first iteration whose
    sample changes sign against the one before, and every distance test
    before it passed. *)
Lemma march_loop_first_crossing (u : Uniforms) (ro rd : vec3) (n : nat) :
  forall (i : Z) (t pv : Q),
    let o := march_loop u ro rd n i t pv in
    out_exit o = Crossed ->
    exists j : nat,
      (j < n)%nat /\ out_i o = (i + Z.of_nat j)%Z /\
      (out_i o < uMaxSteps u)%Z /\
      out_t o = advance (uStep u) t j /\
      density u ro rd (advance (uStep u) t j) * prev_at u ro rd pv t j < 0 /\
      (forall j' : nat, (j' < j)%nat ->
         0 <= density u ro rd (advance (uStep u) t j') * prev_at u ro rd pv t j'
         /\ advance (uStep u) t (S j') <= uMaxDist u).
Proof.
  induction n as [| n IH]; intros i t pv o Hex; subst o; [ discriminate Hex | ].
  destruct (march_loop_cases u ro rd n i t pv)
    as [(_ & E) | [(Hi & Hc & E) | [(_ & _ & _ & E) | (Hi & Hc & Hf & E)]]];
    rewrite E in Hex |- *; cbn [out_exit] in Hex; try discriminate.
  - exists O. cbn [out_i out_t advance prev_at].
    split_all; try assumption; try reflexivity; try lia.
  - destruct (IH (i + 1)%Z (t + uStep u) (density u ro rd t) Hex)
      as (j & Hj & Hi' & Hb & Ht & Hcross & Hbefore).
    exists (S j). cbn [advance].
    rewrite (prev_at_shift u ro rd pv t) in Hcross.
    split_all; try assumption; try reflexivity; try lia.
    intros j' Hj'. destruct j' as [| j'].
    + split; [ exact Hc | exact Hf ].
    + rewrite <- (prev_at_shift u ro rd pv t). apply (Hbefore j'). lia.
Qed.

(** Conversely, the loop stops at the first sign change that both budgets
    and the constant bound let it reach. *)
Lemma march_loop_reaches (u : Uniforms) (ro rd : vec3) (n : nat) :
  forall (i : Z) (t pv : Q) (j : nat),
    (j < n)%nat -> (i + Z.of_nat j < uMaxSteps u)%Z ->
    (forall j' : nat, (j' < j)%nat ->
       0 <= density u ro rd (advance (uStep u) t j') * prev_at u ro rd pv t j'
       /\ advance (uStep u) t (S j') <= uMaxDist u) ->
    density u ro rd (advance (uStep u) t j) * prev_at u ro rd pv t j < 0 ->
    march_loop u ro rd n i t pv
    = mkOut (advance (uStep u) t j)
            (refine u ro rd (density u ro rd (advance (uStep u) t j))
                    (advance (uStep u) t j))
            (i + Z.of_nat j)%Z Crossed.
Proof.
  induction n as [| n IH]; intros i t pv j Hj Hi Hbefore Hcross; [ lia | ].
  destruct j as [| j].
  - cbn [advance prev_at] in *. rewrite Z.add_0_r in *.
    now apply march_loop_cross.
  - destruct (Hbefore O ltac:(lia)) as [H0 Hd0]. cbn [advance prev_at] in H0, Hd0.
    rewrite march_loop_next by (assumption || lia).
    rewrite (IH (i + 1)%Z (t + uStep u) (density u ro rd t) j);
      [ cbn [advance]; f_equal; lia | lia | lia | | ].
    + intros j' Hj'. rewrite (prev_at_shift u ro rd pv t).
      apply (Hbefore (S j')). lia.
    + rewrite (prev_at_shift u ro rd pv t). exact Hcross.
Qed.

(** X1.  A march that refines a crossing does so at the first pair of
    consecutive samples whose densities have strictly opposite signs: it
    leaves at iteration [k+1 < 512] inside the step budget, at
    [t = (k+1) steps], no earlier pair of samples changes sign, and every
    sample up to there is within [uMaxDist]. *)
Theorem march_first_crossing (u : Uniforms) (ro rd : vec3) :
  let o := march u ro rd in
  let d := density u ro rd in
  let at_step := advance (uStep u) 0 in
  out_exit o = Crossed ->
  exists k : nat,
    (S k < 512)%nat /\ out_i o = Z.of_nat (S k) /\
    (out_i o < uMaxSteps u)%Z /\
    out_t o = at_step (S k) /\
    d (at_step (S k)) * d (at_step k) < 0 /\
    (forall j : nat, (j < k)%nat -> 0 <= d (at_step (S j)) * d (at_step j)) /\
    (forall j : nat, (j <= k)%nat -> at_step (S j) <= uMaxDist u).
Proof.
  intros o d at_step Hex. subst o. rewrite march_unfold in *.
  destruct (march_loop_first_crossing u ro rd 512 0%Z 0 (field u ro) Hex)
    as (j & Hj & Hi & Hb & Ht & Hcross & Hbefore).
  destruct j as [| k].
  - exfalso. cbn [advance prev_at] in Hcross.
    pose proof (first_iteration_no_cross u ro rd). lra.
  - exists k. cbn [prev_at] in Hcross.
    split_all; try assumption; try reflexivity; try lia.
    + intros j Hj'. destruct (Hbefore (S j) ltac:(lia)) as [H _]. exact H.
    + intros j Hj'. destruct (Hbefore j ltac:(lia)) as [_ H]. exact H.
Qed.

(** X2.  If the densities of two consecutive samples [k] and [k+1] have
    strictly opposite signs, no earlier pair has, both budgets and the bound
    of 512 iterations reach sample [k+1], then the march refines exactly
    that bracket and, for a positive step, the pixel is a Hit. *)
Theorem march_finds_crossing (u : Uniforms) (ro rd : vec3) (k : nat) :
  let d := density u ro rd in
  let at_step := advance (uStep u) 0 in
  (S k < 512)%nat -> (Z.of_nat (S k) < uMaxSteps u)%Z ->
  (forall j : nat, (j <= k)%nat -> at_step (S j) <= uMaxDist u) ->
  (forall j : nat, (j < k)%nat -> 0 <= d (at_step (S j)) * d (at_step j)) ->
  d (at_step (S k)) * d (at_step k) < 0 ->
  march u ro rd
  = mkOut (at_step (S k)) (refine u ro rd (d (at_step (S k))) (at_step (S k)))
          (Z.of_nat (S k)) Crossed /\
  (0 < uStep u ->
   march_result (march u ro rd) = Hit (out_hitT (march u ro rd))).
Proof.
  intros d at_step Hk Hsteps Hdist Hbefore Hcross.
  assert (E : march u ro rd
              = mkOut (at_step (S k))
                      (refine u ro rd (d (at_step (S k))) (at_step (S k)))
                      (Z.of_nat (S k)) Crossed).
  { rewrite march_unfold.
    rewrite (march_loop_reaches u ro rd 512 0%Z 0 (field u ro) (S k));
      [ reflexivity | exact Hk | lia | | exact Hcross ].
    intros j Hj. split; [ | apply Hdist; lia ].
    destruct j as [| j]; [ apply first_iteration_no_cross | ].
    apply Hbefore. lia. }
  split; [ exact E | ].
  intros Hs.
  destruct (march_start u ro rd 512 Hs) as [Hhit _].
  rewrite <- march_unfold in Hhit. cbv zeta in Hhit.
  apply Hhit. rewrite E. reflexivity.
Qed.

(** ** How far the march goes *)

Lemma advance_steps (step t : Q) (j : nat) :
  advance step t j == t + inject_Z (Z.of_nat j) * step.
Proof.
  revert t. induction j as [| j IH]; intros t.
  - cbn. ring.
  - cbn [advance]. rewrite IH, Nat2Z.inj_succ, <- Z.add_1_r, inject_Z_plus.
    change (inject_Z 1) with 1. ring.
Qed.

(** [t] is the start plus one step for each [t += uStep] that ran. *)
Lemma march_loop_accounting (u : Uniforms) (ro rd : vec3) (n : nat) :
  forall (i : Z) (t pv : Q),
    let o := march_loop u ro rd n i t pv in
    out_t o == t + inject_Z (steps_taken o - i) * uStep u.
Proof.
  induction n as [| n IH]; intros i t pv o; subst o.
  - cbn [march_loop steps_taken out_exit out_i out_t].
    rewrite Z.sub_diag. change (inject_Z 0) with 0. ring.
  - destruct (march_loop_cases u ro rd n i t pv)
      as [(_ & E) | [(_ & _ & E) | [(_ & _ & _ & E) | (_ & _ & _ & E)]]];
      rewrite E.
    + cbn [steps_taken out_exit out_i out_t].
      rewrite Z.sub_diag. change (inject_Z 0) with 0. ring.
    + cbn [steps_taken out_exit out_i out_t].
      rewrite Z.sub_diag. change (inject_Z 0) with 0. ring.
    + cbn [steps_taken out_exit out_i out_t].
      replace (i + 1 - i)%Z with 1%Z by lia. change (inject_Z 1) with 1. ring.
    + rewrite (IH (i + 1)%Z (t + uStep u) (density u ro rd t)).
      set (s := steps_taken _).
      replace (s - i)%Z with ((s - (i + 1)) + 1)%Z by lia.
      rewrite inject_Z_plus. change (inject_Z 1) with 1. ring.
Qed.

(** The counter stays inside the step budget. *)
Lemma march_loop_counter_budget (u : Uniforms) (ro rd : vec3) (n : nat) :
  forall (i : Z) (t pv : Q),
    (out_i (march_loop u ro rd n i t pv) <= Z.max i (uMaxSteps u))%Z.
Proof.
  induction n as [| n IH]; intros i t pv.
  - cbn. lia.
  - destruct (march_loop_cases u ro rd n i t pv)
      as [(_ & E) | [(_ & _ & E) | [(_ & _ & _ & E) | (Hi & _ & _ & E)]]];
      rewrite E; cbn [out_i]; try lia.
    specialize (IH (i + 1)%Z (t + uStep u) (density u ro rd t)). lia.
Qed.

(** From a state within the distance budget, the loop either leaves by the
    distance test, at most one step beyond the budget, or stays within
    it. *)
Lemma march_loop_overshoot (u : Uniforms) (ro rd : vec3) (n : nat) :
  0 <= uStep u ->
  forall (i : Z) (t pv : Q),
    t <= uMaxDist u ->
    let o := march_loop u ro rd n i t pv in
    (out_exit o = DistBudget /\ uMaxDist u < out_t o <= uMaxDist u + uStep u) \/
    (out_exit o <> DistBudget /\ t <= out_t o <= uMaxDist u).
Proof.
  intros Hs. induction n as [| n IH]; intros i t pv Ht o; subst o.
  - right. cbn. split; [ discriminate | lra ].
  - destruct (march_loop_cases u ro rd n i t pv)
      as [(_ & E) | [(_ & _ & E) | [(_ & _ & Hf & E) | (_ & _ & Hf & E)]]];
      rewrite E; cbn [out_exit out_t].
    + right. split; [ discriminate | lra ].
    + right. split; [ discriminate | lra ].
    + left. split; [ reflexivity | lra ].
    + destruct (IH (i + 1)%Z (t + uStep u) (density u ro rd t) Hf)
        as [(Hex & Hb) | (Hex & Hb)]; [ left | right ];
        (split; [ exact Hex | lra ]).
Qed.

(** X3.  The accounts of the march.  The counter ends between 0 and 512 and
    within the step budget; [t] ends at one step for every [t += uStep]
    that ran; and with a step budget that is not positive the loop body
    never runs: the march ends at [t = 0] with no sample taken. *)
Theorem march_accounting (u : Uniforms) (ro rd : vec3) :
  let o := march u ro rd in
  (0 <= out_i o <= 512)%Z /\
  (out_i o <= Z.max 0 (uMaxSteps u))%Z /\
  out_t o == inject_Z (steps_taken o) * uStep u /\
  ((uMaxSteps u <= 0)%Z -> o = mkOut 0 (-1 # 1) 0%Z StepBudget).
Proof.
  intros o. subst o. rewrite march_unfold. split_all.
  - apply march_loop_counter.
  - pose proof (march_loop_counter u ro rd 512 0%Z 0 (field u ro)) as H.
    change (Z.of_nat 512) with 512%Z in H. lia.
  - apply march_loop_counter_budget.
  - rewrite (march_loop_accounting u ro rd 512 0%Z 0 (field u ro)).
    rewrite Z.sub_0_r. ring.
  - intros Hn. now apply march_loop_budget.
Qed.

(** X4.  With a positive step, a Hit distance is positive, lies before the
    sample that detected the crossing, and that sample is within
    [uMaxDist] and at most 511 steps from the origin: no Hit is farther
    than the distance budget, nor farther than 511 steps. *)
Theorem hit_within_budget (u : Uniforms) (ro rd : vec3) (h : Q) :
  0 < uStep u ->
  march_result (march u ro rd) = Hit h ->
  let o := march u ro rd in
  0 < h /\ h < out_t o /\ out_t o <= uMaxDist u /\
  out_t o <= 511 * uStep u.
Proof.
  intros Hs Hhit o.
  destruct (march_start u ro rd 512 Hs) as (Hcross & Hres & _).
  rewrite <- march_unfold in Hcross, Hres. cbv zeta in Hcross, Hres.
  destruct (Hres h Hhit) as [Hex Hh].
  destruct (Hcross Hex) as (_ & _ & Hpos & [_ Hlt] & _).
  fold o in Hex, Hh, Hpos, Hlt.
  assert (Hfirst := Hex). unfold o in Hfirst. rewrite march_unfold in Hfirst.
  destruct (march_loop_first_crossing u ro rd 512 0%Z 0 (field u ro) Hfirst)
    as (j & Hj & _ & _ & Ht & Hc & Hbefore).
  rewrite <- march_unfold in Ht. fold o in Ht.
  destruct j as [| k].
  { exfalso. cbn [advance prev_at] in Hc.
    pose proof (first_iteration_no_cross u ro rd). lra. }
  subst h. split_all; try assumption.
  - rewrite Ht. apply (Hbefore k). lia.
  - rewrite Ht, advance_steps.
    assert (Hk : inject_Z (Z.of_nat (S k)) <= 511).
    { change 511 with (inject_Z 511). rewrite <- Zle_Qle. lia. }
    assert (0 <= (511 - inject_Z (Z.of_nat (S k))) * uStep u)
      by (apply Qmult_le_0_compat; lra).
    lra.
Qed.

(** X5.  With a step and a distance budget that are not negative, a march
    that gives up on distance has gone beyond [uMaxDist] by at most one
    step, and every other march ends within [uMaxDist]. *)
Theorem miss_overshoot (u : Uniforms) (ro rd : vec3) :
  0 <= uStep u -> 0 <= uMaxDist u ->
  let o := march u ro rd in
  (out_exit o = DistBudget /\ uMaxDist u < out_t o <= uMaxDist u + uStep u) \/
  (out_exit o <> DistBudget /\ 0 <= out_t o <= uMaxDist u).
Proof.
  intros Hs Hd o. subst o. rewrite march_unfold.
  exact (march_loop_overshoot u ro rd 512 Hs 0%Z 0 (field u ro) Hd).
Qed.

(** ** The precision of the refinement *)

(** X6.  The four bisection iterations leave a bracket of width [uStep/16]
    inside the starting one, and the distance they return is its midpoint:
    [uStep/32] from either end of the final bracket. *)
Theorem refine_precision (u : Uniforms) (ro rd : vec3) (val t : Q) :
  let ab := refine_loop u ro rd 4 val (t - uStep u) t in
  let a := fst ab in
  let b := snd ab in
  b - a == uStep u / 16 /\
  refine u ro rd val t == a + uStep u / 32 /\
  refine u ro rd val t == b - uStep u / 32 /\
  (0 <= uStep u -> t - uStep u <= a /\ b <= t).
Proof.
  intros ab a b. subst a b ab. unfold refine.
  destruct (refine_loop_width u ro rd 4 val (t - uStep u) t) as [Hw Hin].
  destruct (refine_loop u ro rd 4 val (t - uStep u) t) as [a b].
  cbn [fst snd] in *. change (inject_Z (2 ^ Z.of_nat 4)) with 16 in Hw.
  assert (E16 : uStep u / 16 == uStep u * (1 # 16)) by reflexivity.
  assert (E32 : uStep u / 32 == uStep u * (1 # 32)) by reflexivity.
  rewrite E16, E32. split_all; [ lra | lra | lra | ].
  intros Hs. destruct Hin as (H1 & _ & H3); [ lra | ]. split; assumption.
Qed.

(** ** The step budget *)

(** Two marches over the same field with the same step and distance
    budget, with different step budgets. *)
Section StepBudgets.

Variables u1 u2 : Uniforms.
Variables ro rd : vec3.
Hypothesis Hfield : forall p : vec3, field u1 p = field u2 p.
Hypothesis Hstep : uStep u1 = uStep u2.
Hypothesis Hdist : uMaxDist u1 = uMaxDist u2.

Lemma density_agree (t : Q) : density u1 ro rd t = density u2 ro rd t.
Proof. unfold density. apply Hfield. Qed.

(** Step budgets that both outlast the constant bound make no difference. *)
Lemma march_loop_enough (n : nat) :
  forall (i : Z) (t pv : Q),
    (i + Z.of_nat n <= uMaxSteps u1)%Z -> (i + Z.of_nat n <= uMaxSteps u2)%Z ->
    march_loop u1 ro rd n i t pv = march_loop u2 ro rd n i t pv.
Proof.
  induction n as [| n IH]; intros i t pv H1 H2; [ reflexivity | ].
  pose proof (density_agree t) as Hd.
  destruct (march_loop_cases u1 ro rd n i t pv)
    as [(Hb & _) | [(_ & Hc & E) | [(_ & Hc & Hf & E) | (_ & Hc & Hf & E)]]];
    [ lia | rewrite E .. ]; rewrite Hd, ?Hstep, ?Hdist in *.
  - rewrite march_loop_cross by (assumption || lia).
    rewrite (refine_agree u1 u2 ro rd Hfield Hstep). reflexivity.
  - rewrite march_loop_far by (assumption || lia). reflexivity.
  - rewrite march_loop_next by (assumption || lia). apply IH; lia.
Qed.

(** A larger step budget repeats a march that found a crossing. *)
Lemma march_loop_more_steps (n : nat) :
  (uMaxSteps u1 <= uMaxSteps u2)%Z ->
  forall (i : Z) (t pv : Q),
    out_exit (march_loop u1 ro rd n i t pv) = Crossed ->
    march_loop u2 ro rd n i t pv = march_loop u1 ro rd n i t pv.
Proof.
  intros Hle. induction n as [| n IH]; intros i t pv Hex; [ discriminate Hex | ].
  pose proof (density_agree t) as Hd.
  destruct (march_loop_cases u1 ro rd n i t pv)
    as [(_ & E) | [(Hi & Hc & E) | [(_ & _ & _ & E) | (Hi & Hc & Hf & E)]]];
    rewrite E in Hex |- *; cbn [out_exit] in Hex; try discriminate;
    rewrite Hd, ?Hstep, ?Hdist in *.
  - rewrite march_loop_cross by (assumption || lia).
    rewrite (refine_agree u1 u2 ro rd Hfield Hstep). reflexivity.
  - rewrite march_loop_next by (assumption || lia). apply IH. exact Hex.
Qed.

End StepBudgets.

Lemma field_set_uMaxSteps (n m : Z) (u : Uniforms) (p : vec3) :
  field (set_uMaxSteps n u) p = field (set_uMaxSteps m u) p.
Proof. apply field_agree; reflexivity. Qed.

(** X7.  A step budget of 512 or more is a budget of 512: the march, and so
    the picture, is the same for every [uMaxSteps >= 512]. *)
Theorem maxSteps_clamp (u : Uniforms) (ro rd : vec3) (n : Z) :
  (512 <= n)%Z ->
  march (set_uMaxSteps n u) ro rd = march (set_uMaxSteps 512 u) ro rd.
Proof.
  intros Hn. rewrite !march_unfold, (field_set_uMaxSteps n 512).
  apply march_loop_enough;
    [ apply field_set_uMaxSteps | reflexivity | reflexivity | | ];
    cbn [uMaxSteps set_uMaxSteps]; change (Z.of_nat 512) with 512%Z; lia.
Qed.

(** X8.  With everything else fixed, a larger [uMaxSteps] never turns a Hit
    into a Miss and returns the same Hit distance. *)
Theorem maxSteps_monotone (u : Uniforms) (ro rd : vec3) (n1 n2 : Z) (h : Q) :
  (n1 <= n2)%Z ->
  march_result (march (set_uMaxSteps n1 u) ro rd) = Hit h ->
  march_result (march (set_uMaxSteps n2 u) ro rd) = Hit h.
Proof.
  intros Hn. rewrite !march_unfold, (field_set_uMaxSteps n2 n1). intros Hhit.
  assert (Hex : out_exit (march_loop (set_uMaxSteps n1 u) ro rd 512 0%Z 0
                            (field (set_uMaxSteps n1 u) ro)) = Crossed).
  { apply march_result_hit in Hhit. destruct Hhit as [Hpos _].
    destruct (march_loop_hitT (set_uMaxSteps n1 u) ro rd 512 0%Z 0
                (field (set_uMaxSteps n1 u) ro)) as [(_ & Hm) | (Hex & _)];
      [ | exact Hex ].
    rewrite Hm in Hpos. discriminate Hpos. }
  rewrite (march_loop_more_steps (set_uMaxSteps n1 u) (set_uMaxSteps n2 u)
             ro rd (field_set_uMaxSteps n1 n2 u) eq_refl eq_refl 512 Hn
             _ _ _ Hex).
  exact Hhit.
Qed.

(** ** No octaves *)

Lemma fbm_no_octaves (u : Uniforms) (p : vec3) :
  (uOctaves u <= 0)%Z -> fbm u p = 0.
Proof.
  intros H. rewrite fbm_terms.
  replace (octaves_run (uOctaves u)) with O by (unfold octaves_run; lia).
  reflexivity.
Qed.

(** Where no two field values have strictly opposite signs the loop never
    leaves by a crossing. *)
Lemma march_loop_no_sign_change (u : Uniforms) (ro rd : vec3) (n : nat) :
  (forall p q : vec3, 0 <= field u p * field u q) ->
  forall (i : Z) (t : Q) (q : vec3),
    out_exit (march_loop u ro rd n i t (field u q)) <> Crossed.
Proof.
  intros Hflat. induction n as [| n IH]; intros i t q.
  - cbn. discriminate.
  - destruct (march_loop_cases u ro rd n i t (field u q))
      as [(_ & E) | [(_ & Hc & E) | [(_ & _ & _ & E) | (_ & _ & _ & E)]]];
      rewrite E; cbn [out_exit]; try discriminate.
    + exfalso. unfold density in Hc.
      pose proof (Hflat (ro +v rd *s t) q). lra.
    + apply (IH (i + 1)%Z (t + uStep u) (ro +v rd *s t)).
Qed.

(** X9.  With an octave count that is not positive [fbm] adds nothing: the
    field is the constant [-uThreshold] everywhere, the march finds no
    crossing on any ray, and every pixel is a Miss. *)
Theorem no_octaves_no_surface (u : Uniforms) (ro rd : vec3) :
  (uOctaves u <= 0)%Z ->
  (forall p : vec3, field u p = 0 - uThreshold u) /\
  out_exit (march u ro rd) <> Crossed /\
  march_result (march u ro rd) = Miss (out_t (march u ro rd)).
Proof.
  intros Ho.
  assert (Hf : forall p : vec3, field u p = 0 - uThreshold u)
    by (intros p; unfold field; cbv zeta; now rewrite fbm_no_octaves).
  assert (Hex : out_exit (march u ro rd) <> Crossed).
  { rewrite march_unfold. apply march_loop_no_sign_change.
    intros p q. rewrite !Hf. apply square_nonneg. }
  split; [ exact Hf | ]. split; [ exact Hex | ].
  apply march_result_sentinel.
  destruct (march_loop_hitT u ro rd 512 0%Z 0 (field u ro))
    as [(_ & Hm) | (Hc & _)];
    rewrite <- march_unfold in *; [ exact Hm | contradiction ].
Qed.

(** * Further properties of the noise field *)

Lemma Qfloor_unique (x : Q) (a : Z) :
  inject_Z a <= x < inject_Z (a + 1) -> Qfloor x = a.
Proof.
  intros [Hlo Hhi].
  pose proof (Qfloor_le x) as Hfl.
  pose proof (Qlt_floor x) as Hfh.
  assert (H1 : inject_Z (Qfloor x) < inject_Z (a + 1)) by lra.
  assert (H2 : inject_Z a < inject_Z (Qfloor x + 1)) by lra.
  rewrite <- Zlt_Qlt in H1, H2. lia.
Qed.

Lemma Qfloor_shift (x : Q) (n : Z) : Qfloor (x + inject_Z n) = (Qfloor x + n)%Z.
Proof.
  apply Qfloor_unique.
  pose proof (Qfloor_le x) as Hfl.
  pose proof (Qlt_floor x) as Hfh.
  replace (Qfloor x + n + 1)%Z with ((Qfloor x + 1) + n)%Z by lia.
  rewrite !inject_Z_plus in *. split; lra.
Qed.

Lemma fract_shift (x : Q) (n : Z) : fract (x + inject_Z n) == fract x.
Proof.
  unfold fract, floorQ. rewrite Qfloor_shift, inject_Z_plus. ring.
Qed.

Lemma floorQ_int (a : Z) : floorQ (inject_Z a) == inject_Z a.
Proof. unfold floorQ. now rewrite Qfloor_Z. Qed.

Lemma fract_int (a : Z) : fract (inject_Z a) == 0.
Proof. unfold fract. rewrite floorQ_int. ring. Qed.

Lemma smooth_zero (f : Q) : f == 0 -> f * f * (3 - 2 * f) == 0.
Proof. intros E. rewrite E. ring. Qed.

Lemma smooth_one (f : Q) : f == 1 -> f * f * (3 - 2 * f) == 1.
Proof. intros E. rewrite E. ring. Qed.

Lemma mix_zero (x y a : Q) : a == 0 -> mix x y a == x.
Proof. intros E. unfold mix. rewrite E. ring. Qed.

Lemma valueNoise_cell (u : Uniforms) (p : vec3) :
  valueNoise u p = cell_blend u (vfloor p) (vfract p).
Proof. reflexivity. Qed.

(** X10.  On a lattice point the noise is the hash of that point: the blend
    interpolates the corner hashes. *)
Theorem valueNoise_lattice (u : Uniforms) (a b c : Z) :
  let p := mkvec3 (inject_Z a) (inject_Z b) (inject_Z c) in
  valueNoise u p == hash31 u p.
Proof.
  intros p. subst p. unfold valueNoise. cbv zeta.
  rewrite trilinear_axis;
    [ | unfold vmul, ssubv, smulv, vfract, vmap; cbn [vx vy vz];
        apply smooth_zero, fract_int .. ].
  rewrite mix_zero
    by (unfold vmul, ssubv, smulv, vfract, vmap; cbn [vx vy vz];
        apply smooth_zero, fract_int).
  apply hash31_comp. unfold vfloor, vmap, vadd, veq. cbn [vx vy vz].
  rewrite !floorQ_int. split; [ | split ]; ring.
Qed.

(** The blend of eight corner values on the six faces of the cell. *)
Section Faces.

Variables n000 n100 n010 n110 n001 n101 n011 n111 wx wy wz : Q.

Let blend :=
  mix (mix (mix n000 n100 wx) (mix n010 n110 wx) wy)
      (mix (mix n001 n101 wx) (mix n011 n111 wx) wy) wz.

Lemma blend_x0 :
  wx == 0 -> blend == mix (mix n000 n010 wy) (mix n001 n011 wy) wz.
Proof. intros E. unfold blend, mix. rewrite E. ring. Qed.

Lemma blend_x1 :
  wx == 1 -> blend == mix (mix n100 n110 wy) (mix n101 n111 wy) wz.
Proof. intros E. unfold blend, mix. rewrite E. ring. Qed.

Lemma blend_y0 :
  wy == 0 -> blend == mix (mix n000 n100 wx) (mix n001 n101 wx) wz.
Proof. intros E. unfold blend, mix. rewrite E. ring. Qed.

Lemma blend_y1 :
  wy == 1 -> blend == mix (mix n010 n110 wx) (mix n011 n111 wx) wz.
Proof. intros E. unfold blend, mix. rewrite E. ring. Qed.

Lemma blend_z0 :
  wz == 0 -> blend == mix (mix n000 n100 wx) (mix n010 n110 wx) wy.
Proof. intros E. unfold blend, mix. rewrite E. ring. Qed.

Lemma blend_z1 :
  wz == 1 -> blend == mix (mix n001 n101 wx) (mix n011 n111 wx) wy.
Proof. intros E. unfold blend, mix. rewrite E. ring. Qed.

End Faces.

Ltac same_corner :=
  apply hash31_comp; unfold vadd, veq; cbn [vx vy vz];
  split; [ | split ]; ring.

Ltac face_weight :=
  unfold vmul, ssubv, smulv; cbn [vx vy vz];
  first [ apply smooth_zero | apply smooth_one ]; reflexivity.

Ltac same_face :=
  apply mix_comp;
  [ apply mix_comp; [ same_corner | same_corner | reflexivity ]
  | apply mix_comp; [ same_corner | same_corner | reflexivity ]
  | reflexivity ].

(** X11.  The noise has no jump where [fract] wraps.  [valueNoise] is the
    blend of the cell of [p]; on the upper face of a cell along any axis
    that blend has the value the blend of the next cell has on its lower
    face, for every position on the face. *)
Theorem valueNoise_faces (u : Uniforms) (i : vec3) (fx fy fz : Q) :
  (forall p : vec3, valueNoise u p = cell_blend u (vfloor p) (vfract p)) /\
  cell_blend u i (mkvec3 1 fy fz)
  == cell_blend u (i +v mkvec3 1 0 0) (mkvec3 0 fy fz) /\
  cell_blend u i (mkvec3 fx 1 fz)
  == cell_blend u (i +v mkvec3 0 1 0) (mkvec3 fx 0 fz) /\
  cell_blend u i (mkvec3 fx fy 1)
  == cell_blend u (i +v mkvec3 0 0 1) (mkvec3 fx fy 0).
Proof.
  split; [ intros p; reflexivity | ].
  unfold cell_blend. cbv zeta. split; [ | split ].
  - rewrite blend_x1 by face_weight.
    rewrite (blend_x0 (hash31 u (i +v mkvec3 1 0 0 +v mkvec3 0 0 0)))
      by face_weight.
    same_face.
  - rewrite blend_y1 by face_weight.
    rewrite (blend_y0 (hash31 u (i +v mkvec3 0 1 0 +v mkvec3 0 0 0)))
      by face_weight.
    same_face.
  - rewrite blend_z1 by face_weight.
    rewrite (blend_z0 (hash31 u (i +v mkvec3 0 0 1 +v mkvec3 0 0 0)))
      by face_weight.
    same_face.
Qed.

(** ** What the field reads of the seed vector and of the time *)

(** Uniforms whose hashes agree, and that agree on what else the field
    reads, give the same field. *)
Section FieldEquivalence.

Variables u1 u2 : Uniforms.
Hypothesis Hhash :
  forall p q : vec3, p =v q -> hash31 u1 p == hash31 u2 q.
Hypothesis Htime : uTime u1 == uTime u2.
Hypothesis Hthreshold : uThreshold u1 == uThreshold u2.
Hypothesis Hfreq : uFreq u1 == uFreq u2.
Hypothesis Hoctaves : uOctaves u1 = uOctaves u2.
Hypothesis Hgain : uGain u1 == uGain u2.
Hypothesis Hlacunarity : uLacunarity u1 == uLacunarity u2.

Lemma valueNoise_equiv (p q : vec3) :
  p =v q -> valueNoise u1 p == valueNoise u2 q.
Proof.
  intros Hpq. unfold valueNoise. cbv zeta.
  assert (Hc : forall c : vec3,
            hash31 u1 (vfloor p +v c) == hash31 u2 (vfloor q +v c))
    by (intros c; apply Hhash; now rewrite Hpq).
  assert (Hw : vmul (vmul (vfract p) (vfract p)) (ssubv 3 (smulv 2 (vfract p)))
               =v vmul (vmul (vfract q) (vfract q))
                       (ssubv 3 (smulv 2 (vfract q))))
    by now rewrite Hpq.
  destruct Hw as (Hwx & Hwy & Hwz).
  apply mix_comp;
    [ apply mix_comp; [ apply mix_comp | apply mix_comp | ]
    | apply mix_comp; [ apply mix_comp | apply mix_comp | ]
    | ]; first [ apply Hc | assumption ].
Qed.

Lemma fbm_loop_equiv (n : nat) :
  forall (o : Z) (amp amp' f f' sum sum' : Q) (p p' : vec3),
    amp == amp' -> f == f' -> sum == sum' -> p =v p' ->
    fbm_loop u1 n o amp f sum p == fbm_loop u2 n o amp' f' sum' p'.
Proof.
  induction n as [| n IH]; intros o amp amp' f f' sum sum' p p' Ha Hf Hs Hp.
  - exact Hs.
  - cbn [fbm_loop]. rewrite <- Hoctaves.
    destruct (o >=? uOctaves u1)%Z; [ exact Hs | ].
    apply IH; try assumption.
    + now rewrite Ha, Hgain.
    + now rewrite Hf, Hlacunarity.
    + rewrite Hs, Ha. apply Qplus_comp; [ reflexivity | ].
      apply Qmult_comp; [ reflexivity | ].
      apply valueNoise_equiv. now rewrite Hp, Hf.
Qed.

Lemma field_equiv (p q : vec3) : p =v q -> field u1 p == field u2 q.
Proof.
  intros Hpq. unfold field, fbm. cbv zeta.
  apply Qplus_comp; [ | now rewrite Hthreshold ].
  apply fbm_loop_equiv; try reflexivity; try assumption.
  now rewrite Hpq, Htime.
Qed.

End FieldEquivalence.

(** Seed vectors that differ by whole numbers give the same hash. *)
Lemma hash31_seed_shift (u : Uniforms) (v w : vec3) (a b c : Z) (p q : vec3) :
  vx w == vx v + inject_Z a -> vy w == vy v + inject_Z b ->
  vz w == vz v + inject_Z c -> p =v q ->
  hash31 (set_uSeedVec w u) p == hash31 (set_uSeedVec v u) q.
Proof.
  intros Hx Hy Hz Hpq. unfold hash31. cbv zeta. cbn [uSeedVec set_uSeedVec].
  assert (Hin : vfract (p *s (3183099 # 10000000) +v w)
                =v vfract (q *s (3183099 # 10000000) +v v)).
  { unfold vfract, vmap, vadd, vscale, veq. cbn [vx vy vz].
    destruct Hpq as (Hpx & Hpy & Hpz).
    rewrite Hx, Hy, Hz, Hpx, Hpy, Hpz, !Qplus_assoc, !fract_shift.
    split; [ | split ]; reflexivity. }
  now rewrite Hin.
Qed.

Lemma field_seed_shift (u : Uniforms) (v w : vec3) (a b c : Z) (p : vec3) :
  vx w == vx v + inject_Z a -> vy w == vy v + inject_Z b ->
  vz w == vz v + inject_Z c ->
  field (set_uSeedVec w u) p == field (set_uSeedVec v u) p.
Proof.
  intros Hx Hy Hz.
  apply field_equiv; try reflexivity.
  intros p' q' Hpq. now apply (hash31_seed_shift u v w a b c).
Qed.

(** X12.  The field reads the seed vector modulo 1: adding whole numbers to
    its components changes neither the hash nor the field. *)
Theorem seed_vector_mod_one (u : Uniforms) (v : vec3) (a b c : Z) (p : vec3) :
  let w := mkvec3 (vx v + inject_Z a) (vy v + inject_Z b) (vz v + inject_Z c) in
  hash31 (set_uSeedVec w u) p == hash31 (set_uSeedVec v u) p /\
  field (set_uSeedVec w u) p == field (set_uSeedVec v u) p.
Proof.
  intros w. split.
  - apply (hash31_seed_shift u v w a b c); reflexivity.
  - apply (field_seed_shift u v w a b c); reflexivity.
Qed.



(** X14.  The animation is a drift: the field at time [T] is the field at
    time 0 moved along z by [0.15*T]. *)
Theorem field_time_drift (u : Uniforms) (T : Q) (p : vec3) :
  field (set_uTime T u) p
  == field (set_uTime 0 u) (p +v mkvec3 0 0 ((15 # 100) * T)).
Proof.
  unfold field, fbm. cbv zeta.
  cbn [uTime uThreshold uFreq set_uTime].
  rewrite (fbm_loop_agree (set_uTime T u) (set_uTime 0 u)
             eq_refl eq_refl eq_refl eq_refl).
  apply Qplus_comp; [ | reflexivity ].
  apply fbm_loop_comp; try reflexivity.
  unfold vadd, veq. cbn [vx vy vz]. split; [ | split ]; ring.
Qed.

(** * Further properties of the script *)

(** ** Seeds *)

Lemma wrap32_range (z : Z) : (- 2 ^ 31 <= wrap32 z < 2 ^ 31)%Z.
Proof.
  unfold wrap32.
  pose proof (Z.mod_pos_bound (z + 2 ^ 31) (2 ^ 32) ltac:(lia)). lia.
Qed.

Lemma wrap32_period (z k : Z) : wrap32 (z + k * 2 ^ 32) = wrap32 z.
Proof.
  unfold wrap32.
  replace (z + k * 2 ^ 32 + 2 ^ 31)%Z with (z + 2 ^ 31 + k * 2 ^ 32)%Z by lia.
  now rewrite Z.mod_add by lia.
Qed.

(** The first component separates the seeds of absolute value below the
    modulus. *)
Lemma seed_component_injective (s1 s2 : Z) :
  (- 2147483647 < s1 < 2147483647)%Z -> (- 2147483647 < s2 < 2147483647)%Z ->
  Z.rem (s1 * 16807) 2147483647 = Z.rem (s2 * 16807) 2147483647 ->
  s1 = s2.
Proof.
  intros H1 H2 Hr.
  pose proof (Z.quot_rem' (s1 * 16807) 2147483647) as E1.
  pose proof (Z.quot_rem' (s2 * 16807) 2147483647) as E2.
  assert (Hdiv : (2147483647 | 16807 * (s1 - s2))%Z).
  { exists (Z.quot (s1 * 16807) 2147483647 - Z.quot (s2 * 16807) 2147483647)%Z.
    lia. }
  assert (Hprime : Z.gcd 2147483647 16807 = 1%Z) by (vm_compute; reflexivity).
  apply Z.gauss in Hdiv; [ | exact Hprime ].
  destruct Hdiv as [k Hk].
  assert (Hcases : (k = 0 \/ k = 1 \/ k = -1)%Z) by lia.
  destruct Hcases as [-> | [-> | ->]]; [ lia | exfalso .. ].
  - (* s1 = s2 + M: s1 > 0 > s2, so both remainders are 0 and M divides s1 *)
    assert (Hs1 : (0 < s1)%Z) by lia. assert (Hs2 : (s2 < 0)%Z) by lia.
    pose proof (Z.rem_nonneg (s1 * 16807) 2147483647 ltac:(lia) ltac:(lia)).
    pose proof (Z.rem_nonpos (s2 * 16807) 2147483647 ltac:(lia) ltac:(lia)).
    assert (Hz : Z.rem (s1 * 16807) 2147483647 = 0%Z) by lia.
    assert (Hd1 : (2147483647 | 16807 * s1)%Z)
      by (exists (Z.quot (s1 * 16807) 2147483647); lia).
    apply Z.gauss in Hd1; [ | exact Hprime ].
    destruct Hd1 as [j Hj]. lia.
  - assert (Hs1 : (s1 < 0)%Z) by lia. assert (Hs2 : (0 < s2)%Z) by lia.
    pose proof (Z.rem_nonpos (s1 * 16807) 2147483647 ltac:(lia) ltac:(lia)).
    pose proof (Z.rem_nonneg (s2 * 16807) 2147483647 ltac:(lia) ltac:(lia)).
    assert (Hz : Z.rem (s2 * 16807) 2147483647 = 0%Z) by lia.
    assert (Hd2 : (2147483647 | 16807 * s2)%Z)
      by (exists (Z.quot (s2 * 16807) 2147483647); lia).
    apply Z.gauss in Hd2; [ | exact Hprime ].
    destruct Hd2 as [j Hj]. lia.
Qed.

(** X15.  Two distinct integer seeds of absolute value below 2147483647
    have distinct seed vectors, whatever their signs; the bound cannot be
    raised, since the seeds 0 and 2147483647 both give the zero vector. *)
Theorem seedVec_injective (p1 p2 : Params) (s1 s2 : Z) :
  seed p1 == inject_Z s1 -> seed p2 == inject_Z s2 ->
  (- 2147483647 < s1 < 2147483647)%Z -> (- 2147483647 < s2 < 2147483647)%Z ->
  s1 <> s2 ->
  ~ (seedVec p1 =v seedVec p2) /\
  seedVec (set_param "seed" 2147483647 p1) = seedVec (set_param "seed" 0 p1).
Proof.
  intros E1 E2 H1 H2 Hne. split; [ | reflexivity ].
  rewrite (seedVec_int p1 s1 E1) by lia.
  rewrite (seedVec_int p2 s2 E2) by lia.
  intros (Hx & _). cbn [vx] in Hx.
  apply Hne, seed_component_injective; try assumption.
  unfold Qeq in Hx. cbn [Qnum Qden] in Hx. lia.
Qed.

(** X16.  Only the 32-bit integer [seed|0] of the seed matters: a seed
    gives the vector of its truncated and wrapped value, that value is in
    the signed 32-bit range, and integer seeds that differ by a multiple of
    2^32 give the same vector. *)
Theorem seed_is_int32 (p : Params) :
  (- 2 ^ 31 <= toInt32 (seed p) < 2 ^ 31)%Z /\
  seedVec (set_param "seed" (inject_Z (toInt32 (seed p))) p) = seedVec p /\
  (forall (s k : Z) (p' : Params),
     seed p == inject_Z s -> seed p' == inject_Z (s + k * 2 ^ 32) ->
     seedVec p' = seedVec p).
Proof.
  split; [ apply wrap32_range | ]. split.
  - unfold seedVec. cbn [seed set_param String.eqb Ascii.eqb Bool.eqb].
    rewrite (toInt32_int _ (toInt32 (seed p)) (Qeq_refl _) (wrap32_range _)).
    reflexivity.
  - intros s k p' E E'. unfold seedVec, toInt32.
    rewrite E, E', !Qtrunc_inject_Z, wrap32_period. reflexivity.
Qed.

(** ** URL overrides *)

Ltac key_case k :=
  repeat match goal with
         | |- context [ String.eqb k ?lit ] =>
             destruct (String.eqb_spec k lit); [ subst k | ]
         end.

(** A key that is none of the ten parameters changes nothing. *)
Lemma set_param_unknown (k : string) (v : Q) (p : Params) :
  ~ In k param_keys -> set_param k v p = p.
Proof.
  intros Hk. unfold set_param.
  key_case k; try reflexivity; exfalso; apply Hk; cbn; tauto.
Qed.

(** A second value for a key replaces the first. *)
Lemma set_param_twice (k : string) (v1 v2 : Q) (p : Params) :
  set_param k v2 (set_param k v1 p) = set_param k v2 p.
Proof. unfold set_param. key_case k; reflexivity. Qed.

(** Values for different keys do not interfere. *)
Lemma set_param_swap (k1 k2 : string) (v1 v2 : Q) (p : Params) :
  k1 <> k2 ->
  set_param k1 v1 (set_param k2 v2 p) = set_param k2 v2 (set_param k1 v1 p).
Proof.
  intros Hne. unfold set_param.
  key_case k1; key_case k2; try reflexivity; try contradiction.
Qed.

Lemma url_params_shadowed (k : string) (v : Q) (query : list (string * Q)) :
  In k (map fst query) ->
  forall p : Params,
    url_params query (set_param k v p) = url_params query p.
Proof.
  unfold url_params.
  induction query as [| [k' v'] query IH]; intros Hin p; [ destruct Hin | ].
  cbn [fold_left fst snd]. cbn [map fst] in Hin.
  destruct (string_dec k' k) as [-> | Hne].
  - now rewrite set_param_twice.
  - destruct Hin as [Heq | Hin]; [ contradiction | ].
    rewrite set_param_swap by exact Hne. now apply IH.
Qed.

(** X17.  The query string overrides parameters key by key: pairs are
    applied in order, a pair whose key is not a parameter is ignored, and
    a pair whose key comes again later in the query has no effect. *)
Theorem url_params_overrides
  (k : string) (v : Q) (q1 q2 : list (string * Q)) (p : Params) :
  url_params (q1 ++ q2) p = url_params q2 (url_params q1 p) /\
  (~ In k param_keys ->
   url_params (q1 ++ (k, v) :: q2) p = url_params (q1 ++ q2) p) /\
  (In k (map fst q2) ->
   url_params (q1 ++ (k, v) :: q2) p = url_params (q1 ++ q2) p).
Proof.
  assert (Happ : forall a b r, url_params (a ++ b) r
                               = url_params b (url_params a r))
    by (intros; unfold url_params; apply fold_left_app).
  split; [ apply Happ | ]. split.
  - intros Hk. rewrite !Happ. unfold url_params at 1 3.
    cbn [fold_left fst snd]. now rewrite set_param_unknown.
  - intros Hin. rewrite !Happ.
    change (url_params ((k, v) :: q2) (url_params q1 p))
      with (url_params q2 (set_param k v (url_params q1 p))).
    now apply url_params_shadowed.
Qed.

(** * Instances *)

Ltac small_Q :=
  repeat match goal with |- _ /\ _ => split end;
  vm_compute; first [ reflexivity | discriminate ].

(** The cave with a distance budget of 200. *)
Lemma cave_first_samples :
  let u := set_uMaxDist 200 cave_uniforms in
  let d := density u origin down_z in
  d (advance (uStep u) 0 1) * d (advance (uStep u) 0 0) < 0.
Proof.
  intros u d.
  apply pos_mult_neg.
  - apply (cave_positive u); first [ reflexivity | small_Q ].
  - apply (cave_negative u); first [ reflexivity | small_Q ].
Qed.

Lemma march_first_crossing_witness :
  let u := set_uMaxDist 200 cave_uniforms in
  let o := march u origin down_z in
  out_exit o = Crossed /\
  exists k : nat, (S k < 512)%nat /\ out_i o = Z.of_nat (S k).
Proof.
  intros u o.
  assert (Hex : out_exit o = Crossed)
    by exact (proj1 (cave_uniforms_march 200 ltac:(small_Q))).
  split; [ exact Hex | ].
  destruct (march_first_crossing u origin down_z Hex) as (k & Hk & Hi & _).
  exists k. split; [ exact Hk | exact Hi ].
Defined.

Lemma march_finds_crossing_witness :
  let u := set_uMaxDist 200 cave_uniforms in
  let d := density u origin down_z in
  d (advance (uStep u) 0 1) * d (advance (uStep u) 0 0) < 0 /\
  out_exit (march u origin down_z) = Crossed.
Proof.
  intros u d.
  assert (Hc : d (advance (uStep u) 0 1) * d (advance (uStep u) 0 0) < 0)
    by exact cave_first_samples.
  split; [ exact Hc | ].
  assert (H1 : (1 < 512)%nat) by lia.
  assert (H2 : (Z.of_nat 1 < uMaxSteps u)%Z) by reflexivity.
  assert (H3 : forall j : nat, (j <= 0)%nat ->
                 advance (uStep u) 0 (S j) <= uMaxDist u)
    by (intros j Hj; replace j with O by lia; small_Q).
  assert (H4 : forall j : nat, (j < 0)%nat ->
                 0 <= d (advance (uStep u) 0 (S j)) * d (advance (uStep u) 0 j))
    by (intros j Hj; lia).
  destruct (march_finds_crossing u origin down_z 0 H1 H2 H3 H4 Hc) as [E _].
  exact (f_equal out_exit E).
Defined.

Lemma hit_within_budget_witness :
  let u := set_uMaxDist 200 cave_uniforms in
  let o := march u origin down_z in
  0 < uStep u /\ march_result o = Hit (out_hitT o) /\
  out_hitT o < out_t o /\ out_t o <= uMaxDist u.
Proof.
  intros u o.
  assert (Hs : 0 < uStep u) by reflexivity.
  assert (Hh : march_result o = Hit (out_hitT o))
    by exact (proj2 (proj2 (proj2 (proj2
                (cave_uniforms_march 200 ltac:(small_Q)))))).
  split; [ exact Hs | ]. split; [ exact Hh | ].
  destruct (hit_within_budget u origin down_z (out_hitT o) Hs Hh)
    as (_ & Hlt & Hd & _).
  split; [ exact Hlt | exact Hd ].
Defined.

Lemma miss_overshoot_witness :
  let u := cave_uniforms in
  let o := march u origin down_z in
  (0 <= uStep u /\ 0 <= uMaxDist u) /\
  ((out_exit o = DistBudget /\
    uMaxDist u < out_t o <= uMaxDist u + uStep u) \/
   (out_exit o <> DistBudget /\ 0 <= out_t o <= uMaxDist u)).
Proof.
  intros u o.
  assert (Hs : 0 <= uStep u) by small_Q.
  assert (Hd : 0 <= uMaxDist u) by small_Q.
  split; [ split; [ exact Hs | exact Hd ] | ].
  exact (miss_overshoot u origin down_z Hs Hd).
Defined.

Lemma maxSteps_clamp_witness :
  let u := uniforms params0 frame0 in
  (512 <= 1024)%Z /\
  march (set_uMaxSteps 1024 u) origin down_z
  = march (set_uMaxSteps 512 u) origin down_z.
Proof.
  intros u.
  assert (H : (512 <= 1024)%Z) by lia.
  split; [ exact H | ].
  exact (maxSteps_clamp u origin down_z 1024 H).
Defined.

Lemma maxSteps_monotone_witness :
  let u := cave_uniforms in
  let h := out_hitT (march (set_uMaxSteps 1024 u) origin down_z) in
  (1024 <= 2000)%Z /\
  march_result (march (set_uMaxSteps 1024 u) origin down_z) = Hit h /\
  march_result (march (set_uMaxSteps 2000 u) origin down_z) = Hit h.
Proof.
  intros u h.
  assert (Hn : (1024 <= 2000)%Z) by lia.
  assert (H1 : march_result (march (set_uMaxSteps 1024 u) origin down_z) = Hit h).
  { refine (proj2 (proj2 (proj2 (proj2
              (cave_march (set_uMaxSteps 1024 u) eq_refl eq_refl eq_refl
                 eq_refl eq_refl eq_refl eq_refl _))))).
    small_Q. }
  split; [ exact Hn | ]. split; [ exact H1 | ].
  exact (maxSteps_monotone u origin down_z 1024 2000 h Hn H1).
Defined.

Lemma no_octaves_no_surface_witness :
  let u := uniforms (set_param "octaves" 0 params0) frame0 in
  (uOctaves u <= 0)%Z /\
  march_result (march u origin down_z) = Miss (out_t (march u origin down_z)).
Proof.
  intros u.
  assert (Ho : (uOctaves u <= 0)%Z) by (vm_compute; discriminate).
  split; [ exact Ho | ].
  exact (proj2 (proj2 (no_octaves_no_surface u origin down_z Ho))).
Defined.


Lemma seedVec_injective_witness :
  let p1 := set_param "seed" (-5 # 1) params0 in
  let p2 := set_param "seed" 5 params0 in
  ~ (seedVec p1 =v seedVec p2).
Proof.
  intros p1 p2.
  exact (proj1 (seedVec_injective p1 p2 (-5) 5
                  (Qeq_refl _) (Qeq_refl _)
                  ltac:(lia) ltac:(lia) ltac:(lia))).
Defined.


